(** * Reaction-energy notebook: the entry lookup [get_most_stable_entry]

    The notebook "Calculating Reaction Energies with the Materials API"
    fetches the entries of the Ca-C-O chemical system into the global
    list [all_entries] and defines one function of its own,

<<
    def get_most_stable_entry(formula):
        relevant_entries = [entry for entry in all_entries
                            if entry.composition.reduced_formula
                               == Composition(formula).reduced_formula]
        relevant_entries = sorted(relevant_entries,
                                  key=lambda e: e.energy_per_atom)
        return relevant_entries[0]
>>

    Everything else in the two notebooks is a sequence of calls into
    pymatgen.  This development embeds the function above, together with
    the fragment of Python it runs on: list objects living in a heap, a
    global variable pointing to one of them, exceptions, the list
    comprehension, the builtin [sorted] and list indexing.  It goes on
    with the three lookups the cell makes with the function, and with
    what the notebook "Ordering Disordered Structures" does itself with
    the ranked list the library returns: two comprehensions over it and
    the loop that writes one file per candidate. *)

From Stdlib Require Import QArith.
From stdpp Require Import base option list sorting strings pretty gmap.

(** ** Exceptions and results *)

(** The exceptions a run can end in.  [IndexError] and [NameError] are
    Python's own; [LibraryError] stands for whatever pymatgen raises from
    inside one of its calls; the last four are the error taxonomy of the
    specification, none of which the notebooks raise. *)
Inductive exception : Type :=
  | IndexError
  | NameError
  | LibraryError (msg : string)
  | NotFoundError
  | UnbalancedReactionError
  | ResourceExhaustedError
  | ToleranceError.

Inductive result (A : Type) : Type :=
  | OK (a : A)
  | Raise (e : exception).
Arguments OK {A} a.
Arguments Raise {A} e.

(** ** The library interface

    What the notebook uses of pymatgen's [Composition]: the constructor
    from a formula string, which rejects strings that are not formulas,
    and the [reduced_formula] property.  Both are pure. *)
Class CompositionLib (Comp : Type) : Type := {
  Composition : string → result Comp;
  reduced_formula : Comp → string
}.

(** ** Floats

    A Python float is a rational number or the value NaN, which
    [x / y] and the database can both deliver.  Comparison is that of
    the rationals when both sides are numbers; with NaN on either side
    [<], [<=] and [==] are all false.  (An infinite float compares like
    a number beyond all others and is left out.) *)
Inductive float : Type :=
  | Finite (q : Q)
  | NaN.
Coercion Finite : Q >-> float.

Definition Qltb (x y : Q) : bool := negb (Qle_bool y x).

(** [x < y] as Python evaluates it. *)
Definition float_ltb (x y : float) : bool :=
  match x, y with
  | Finite p, Finite q => Qltb p q
  | _, _ => false
  end.

Definition float_lt (x y : float) : Prop :=
  match x, y with
  | Finite p, Finite q => (p < q)%Q
  | _, _ => False
  end.

Definition float_le (x y : float) : Prop :=
  match x, y with
  | Finite p, Finite q => (p <= q)%Q
  | _, _ => False
  end.

Definition float_eq (x y : float) : Prop :=
  match x, y with
  | Finite p, Finite q => (p == q)%Q
  | _, _ => False
  end.

(** The number a float is, for use where it is known not to be NaN. *)
Definition to_Q (x : float) : Q :=
  match x with
  | Finite q => q
  | NaN => 0
  end.

(** A [ComputedEntry] as the notebook reads it: its [composition] and its
    [energy_per_atom], a float. *)
Record entry (Comp : Type) : Type := Entry {
  entry_id : string;
  composition : Comp;
  energy_per_atom : float
}.
Arguments Entry {Comp} entry_id composition energy_per_atom.
Arguments entry_id {Comp} e.
Arguments composition {Comp} e.
Arguments energy_per_atom {Comp} e.

(** ** The builtin [sorted]

    [sorted(xs, key=k)] copies [xs] and sorts the copy with [list.sort],
    which compares keys with [<] only.  CPython sorts a list of fewer
    than 64 elements in two steps, followed here as they are written in
    [listobject.c]: [count_run] finds the run the list starts with,
    ascending or strictly descending, and a descending run is reversed;
    [binarysort] then inserts the remaining elements one by one, each at
    the place a binary search in the sorted part gives.  A longer list is
    cut into runs that are merged; the merging is not followed here.
    When the keys are numbers the result of any stable sort is the same
    ([sorted_stable_sort] below), so it is only for a list of 64 or more
    elements with a NaN key that [list_sort] may differ from CPython, and
    nothing below depends on the order of such a list. *)
Section list_sort.
Context {A : Type} (lt : A → A → bool).

(** How many elements continue an ascending run after [prev], and how
    many a strictly descending one. *)
Fixpoint run_up (prev : A) (l : list A) : nat :=
  match l with
  | [] => 0
  | x :: l' => if lt x prev then 0 else S (run_up x l')
  end.

Fixpoint run_down (prev : A) (l : list A) : nat :=
  match l with
  | [] => 0
  | x :: l' => if lt x prev then S (run_down x l') else 0
  end.

(** [count_run]: the length of the run at the head of the list, and
    whether it is descending. *)
Definition count_run (l : list A) : nat * bool :=
  match l with
  | [] => (0, false)
  | [x] => (1, false)
  | x :: y :: l' =>
      if lt y x then (2 + run_down y l', true)
      else (2 + run_up y l', false)
  end.

(** The binary search of [binarysort] for the place of [pivot] in
    [pre], between the indices [l] and [r]: a do-while loop that halves
    the interval, so [r - l] steps are enough. *)
Fixpoint bisect (fuel : nat) (pivot : A) (pre : list A) (l r : nat) : nat :=
  match fuel with
  | 0 => l
  | S fuel' =>
      let p := l + (r - l) / 2 in
      match pre !! p with
      | None => l
      | Some x =>
          if lt pivot x
          then (if l <? p then bisect fuel' pivot pre l p else l)
          else (if S p <? r then bisect fuel' pivot pre (S p) r else S p)
      end
  end.

Definition binary_insert (pre : list A) (pivot : A) : list A :=
  let l := bisect (length pre) pivot pre 0 (length pre) in
  take l pre ++ pivot :: drop l pre.

Definition binarysort (pre rest : list A) : list A :=
  foldl binary_insert pre rest.

Definition list_sort (l : list A) : list A :=
  match l with
  | [] | [_] => l
  | _ =>
      let '(n, descending) := count_run l in
      let run := take n l in
      binarysort (if descending : bool then reverse run else run) (drop n l)
  end.
End list_sort.

Definition sorted {A : Type} (key : A → float) (l : list A) : list A :=
  list_sort (λ a b, float_ltb (key a) (key b)) l.

(** *** The ascending stable arrangement

    What a stable sort by a key of numbers gives, built by insertion from
    the right end; it serves to say what [sorted] returns when no key is
    NaN. *)
Fixpoint insert_by {A : Type} (key : A → Q) (x : A) (l : list A) : list A :=
  match l with
  | [] => [x]
  | y :: l' => if Qltb (key y) (key x) then y :: insert_by key x l' else x :: l
  end.

Definition stable_sort {A : Type} (key : A → Q) (l : list A) : list A :=
  foldr (insert_by key) [] l.

(** Ascending in the key, and the elements of one key. *)
Definition key_le {A : Type} (key : A → Q) (a b : A) : Prop :=
  (key a <= key b)%Q.

Definition has_key {A : Type} (key : A → Q) (q : Q) (a : A) : Prop :=
  (key a == q)%Q.

(** ** Program states and the monad of runs *)

Definition loc : Type := nat.

Section Runs.
Context {Comp : Type}.

(** A state is the heap of list objects and the global variable
    [all_entries], which names one of them. *)
Record state : Type := State {
  heap : gmap loc (list (entry Comp));
  all_entries : loc
}.

Definition M (A : Type) : Type := state → result A * state.

Definition raise {A : Type} (e : exception) : M A := λ σ, (Raise e, σ).

Definition lift {A : Type} (r : result A) : M A := λ σ, (r, σ).

(** Sequencing stops at the first exception and keeps the state reached
    when it was raised. *)
#[export] Instance M_ret : MRet M := λ A a σ, (OK a, σ).

#[export] Instance M_bind : MBind M := λ A B k m σ,
  match m σ with
  | (OK a, σ') => k a σ'
  | (Raise e, σ') => (Raise e, σ')
  end.
End Runs.
Arguments state Comp : clear implicits.
Arguments M Comp A : clear implicits.

Section Python.
Context {Comp : Type}.
Local Abbreviation entry := (entry Comp).
Local Abbreviation M := (M Comp).

(** Reading the global variable [all_entries]. *)
Definition global_all_entries : M loc := λ σ, (OK (all_entries σ), σ).

(** Reading the list object at [l].  A location without an object is a
    name that was never bound. *)
Definition load (l : loc) : M (list entry) := λ σ,
  match heap σ !! l with
  | Some xs => (OK xs, σ)
  | None => (Raise NameError, σ)
  end.

(** Creating a new list object: it gets a location no object has. *)
Definition new_loc (σ : state Comp) : loc := fresh (dom (heap σ)).

Definition store (xs : list entry) (σ : state Comp) : state Comp :=
  State (<[new_loc σ:=xs]> (heap σ)) (all_entries σ).

Definition alloc (xs : list entry) : M loc := λ σ,
  (OK (new_loc σ), store xs σ).

(** [extends σ σ']: the global [all_entries] names the same object in
    [σ'] as in [σ], and every list object of [σ] is in [σ'] with the
    same contents. *)
Definition extends (σ σ' : state Comp) : Prop :=
  all_entries σ' = all_entries σ ∧ heap σ ⊆ heap σ'.

(** A computation that leaves alone every object there is when it
    starts: what it creates, it may fill. *)
Definition only_allocates {A : Type} (m : M A) : Prop :=
  ∀ σ, extends σ (m σ).2.

(** [l.append(x)]: the list object at [l] grows at its end. *)
Definition append (l : loc) (x : entry) : M unit := λ σ,
  match heap σ !! l with
  | Some ys => (OK (), State (<[l:=ys ++ [x]]> (heap σ)) (all_entries σ))
  | None => (Raise NameError, σ)
  end.

(** [[x for x in xs if cond(x)]].  The iterable is evaluated first; then
    the result list is created, empty; then the condition is evaluated
    once per element, left to right, and the elements it holds of are
    appended.  A condition that raises leaves the list as far as it was
    filled.  (The conditions of the notebook change no list, so the
    elements are read once, at the start.) *)
Fixpoint comprehension (cond : entry → M bool) (r : loc) (xs : list entry)
    : M unit :=
  match xs with
  | [] => mret ()
  | x :: xs' =>
      b ← cond x;
      _ ← (if b : bool then append r x else mret ());
      comprehension cond r xs'
  end.

Definition list_comprehension (cond : entry → M bool) (l : loc) : M loc :=
  xs ← load l;
  r ← alloc [];
  _ ← comprehension cond r xs;
  mret r.

(** [sorted(l, key=key)]: a new list object, [l] is only read. *)
Definition sorted_builtin (l : loc) (key : entry → float) : M loc :=
  xs ← load l;
  alloc (sorted key xs).

(** [l[i]] for [i >= 0]. *)
Definition getitem (l : loc) (i : nat) : M entry :=
  xs ← load l;
  match xs !! i with
  | Some x => mret x
  | None => raise IndexError
  end.
End Python.

(** ** The notebook's function *)

Section Notebook.
Context {Comp : Type} `{!CompositionLib Comp}.
Local Abbreviation entry := (entry Comp).
Local Abbreviation M := (M Comp).

(** The condition of the comprehension.  Python evaluates
    [Composition(formula)] anew for every entry, so a formula the
    library rejects goes unnoticed when [all_entries] is empty. *)
Definition same_reduced_formula (formula : string) (entry : entry) : M bool :=
  c ← lift (Composition formula);
  mret (String.eqb (reduced_formula (composition entry)) (reduced_formula c)).

Definition get_most_stable_entry (formula : string) : M entry :=
  all_entries ← global_all_entries;
  relevant_entries ←
    list_comprehension (same_reduced_formula formula) all_entries;
  relevant_entries ← sorted_builtin relevant_entries energy_per_atom;
  getitem relevant_entries 0.

(** The value the second assignment gives to [relevant_entries], as a
    function of the composition asked for and of the contents of
    [all_entries]. *)
Definition matches (c : Comp) (entry : entry) : bool :=
  String.eqb (reduced_formula (composition entry)) (reduced_formula c).

Definition relevant_entries (c : Comp) (es : list entry) : list entry :=
  sorted energy_per_atom (filter (λ e, matches c e = true) es).
End Notebook.

(** ** Flat formulas

    A small implementation of the library interface, enough to run the
    notebook's function on formulas such as [CaCO3] or [Ca2O2]: an element
    symbol is a capital followed by small letters, an amount is a decimal
    number and defaults to one, and the reduced formula divides the
    amounts by their greatest common divisor.  It is not pymatgen's code,
    which the notebooks do not contain; the theorems are stated for every
    implementation of the interface and only the examples use this one. *)
Module Flat.
Definition comp : Type := list (string * nat).

Definition is_upper (a : Ascii.ascii) : bool :=
  let n := Ascii.nat_of_ascii a in (65 <=? n) && (n <=? 90).

Definition is_lower (a : Ascii.ascii) : bool :=
  let n := Ascii.nat_of_ascii a in (97 <=? n) && (n <=? 122).

(** The element being read: its symbol, last letter first, and the
    digits seen after it. *)
Definition pending : Type := option (string * option nat).

Definition close (cur : pending) : comp :=
  match cur with
  | None => []
  | Some (sym, n) => [(String.rev sym, default 1 n)]
  end.

Fixpoint parse_go (cur : pending) (s : string) : option comp :=
  match s with
  | EmptyString => Some (close cur)
  | String a s =>
      if is_upper a then
        (close cur ++.) <$> parse_go (Some (String a EmptyString, None)) s
      else if is_lower a then
        match cur with
        | Some (sym, None) => parse_go (Some (String a sym, None)) s
        | _ => None
        end
      else
        match Ascii.is_nat a, cur with
        | Some d, Some (sym, n) =>
            parse_go (Some (sym, Some (10 * default 0 n + d))) s
        | _, _ => None
        end
  end.

Definition parse (s : string) : result comp :=
  match parse_go None s with
  | Some (x :: c) => OK (x :: c)
  | _ => Raise (LibraryError "invalid formula")
  end.

Definition reduce (c : comp) : comp :=
  let g := foldr Nat.gcd 0 (c.*2) in
  (λ '(sym, n), (sym, n `div` g)) <$> c.

Definition show (c : comp) : string :=
  foldr (λ '(sym, n) r,
           sym +:+ (if n =? 1 then EmptyString else pretty n) +:+ r)
        EmptyString c.

#[export] Instance lib : CompositionLib comp := {|
  Composition := parse;
  reduced_formula c := show (reduce c)
|}.

(** A sample of the Ca-C-O system: two polymorphs each of CaO and CaCO3,
    stored with the contents of their cells, and CO2. *)
Definition sample : list (entry comp) := [
  Entry "CaO-rocksalt" [("Ca", 1); ("O", 1)] (-6439 # 1000);
  Entry "CaCO3-aragonite" [("Ca", 4); ("C", 4); ("O", 12)] (-7441 # 1000);
  Entry "CO2" [("C", 4); ("O", 8)] (-7664 # 1000);
  Entry "CaO-CsCl" [("Ca", 2); ("O", 2)] (-6021 # 1000);
  Entry "CaCO3-calcite" [("Ca", 2); ("C", 2); ("O", 6)] (-7450 # 1000);
  Entry "CaO-rocksalt-bis" [("Ca", 4); ("O", 4)] (-6439 # 1000)
].

(** The state after the cell has bound [all_entries] to the sample. *)
Definition booted : state comp := State {[ 0 := sample ]} 0.
End Flat.

(** ** The rest of the reaction cell

    After the definition the cell looks up the three compounds,

<<
    CaO = get_most_stable_entry("CaO")
    CO2 = get_most_stable_entry("CO2")
    CaCO3 = get_most_stable_entry("CaCO3")
    reaction = ComputedReaction([CaO, CO2], [CaCO3])
>>

    [reaction_arguments] runs the three calls in this order and returns
    the two lists handed to the library's [ComputedReaction]. *)
Section Cell.
Context {Comp : Type} `{!CompositionLib Comp}.

Definition reaction_arguments
    : M Comp (list (entry Comp) * list (entry Comp)) :=
  CaO ← get_most_stable_entry "CaO";
  CO2 ← get_most_stable_entry "CO2";
  CaCO3 ← get_most_stable_entry "CaCO3";
  mret ([CaO; CO2], [CaCO3]).
End Cell.

(** ** The ordering notebook: writing the candidates to files

    The notebook "Ordering Disordered Structures" gets from the library a
    ranked list [ss] of dictionaries, each holding a candidate under the
    key [structure] beside numbers such as its energy, and uses it in
    three places of its own:

<<
    matcher.group_structures([d["structure"] for d in ss])
    [len(d["structure"]) for d in ss]
    for i, d in enumerate(ss):
        d["structure"].to(filename="CuAu_%d.cif" % i)
>>
*)
Module Ordering.

(** What a dictionary may hold: a number, a structure, or a string,
    which like a structure has a length but has no method [to]. *)
Inductive value (Structure : Type) : Type :=
  | Number (q : Q)
  | Struct (s : Structure)
  | Text (t : string).
Arguments Number {Structure} q.
Arguments Struct {Structure} s.
Arguments Text {Structure} t.

(** The exceptions of this notebook's own code: a dictionary without
    the key, and a value that is no structure asked for a structure's
    method or length. *)
Inductive error : Type :=
  | KeyError (key : string)
  | AttributeError (attr : string)
  | TypeError.

(** What the notebook uses of a pymatgen [Structure]: its number of sites
    and the text [to] writes for a file name ending in [.cif]. *)
Class StructureLib (Structure : Type) : Type := {
  num_sites : Structure → nat;
  cif : Structure → string
}.

(** The files of the working directory: name to contents. *)
Abbreviation files := (gmap string string).

Section Loop.
Context {Structure : Type} `{!StructureLib Structure}.

Definition dict : Type := gmap string (value Structure).

(** [d["structure"]]. *)
Definition getitem_structure (d : dict) : error + value Structure :=
  match d !! "structure" with
  | Some v => inr v
  | None => inl (KeyError "structure")
  end.

(** The structure a dictionary holds under the key, if it holds one. *)
Definition structure_of (d : dict) : option Structure :=
  match d !! "structure" with
  | Some (Struct s) => Some s
  | _ => None
  end.

(** ["CuAu_%d.cif" % i] for the indices [enumerate] counts, 0, 1, ... *)
Definition filename (i : nat) : string := "CuAu_" +:+ pretty i +:+ ".cif".

(** [v.to(filename=name)]: a structure writes its file, replacing the
    one of that name; a number or a string has no such method. *)
Definition to (v : value Structure) (name : string) (fs : files)
    : option error * files :=
  match v with
  | Struct s => (None, <[name:=cif s]> fs)
  | Number _ | Text _ => (Some (AttributeError "to"), fs)
  end.

(** The loop, entered with [enumerate] at index [i]: it stops at the
    first exception and keeps the files written until then. *)
Fixpoint write_from (i : nat) (ss : list dict) (fs : files)
    : option error * files :=
  match ss with
  | [] => (None, fs)
  | d :: ss' =>
      match getitem_structure d with
      | inl e => (Some e, fs)
      | inr v =>
          match to v (filename i) fs with
          | (None, fs') => write_from (S i) ss' fs'
          | (Some e, fs') => (Some e, fs')
          end
      end
  end.

Definition write_all (ss : list dict) (fs : files) : option error * files :=
  write_from 0 ss fs.

(** [[d["structure"] for d in ss]]. *)
Fixpoint structures (ss : list dict) : error + list (value Structure) :=
  match ss with
  | [] => inr []
  | d :: ss' =>
      match getitem_structure d with
      | inl e => inl e
      | inr v =>
          match structures ss' with
          | inl e => inl e
          | inr vs => inr (v :: vs)
          end
      end
  end.

(** [len(v)]. *)
Definition len (v : value Structure) : error + nat :=
  match v with
  | Struct s => inr (num_sites s)
  | Text t => inr (String.length t)
  | Number _ => inl TypeError
  end.

(** [[len(d["structure"]) for d in ss]]. *)
Fixpoint cell_sizes (ss : list dict) : error + list nat :=
  match ss with
  | [] => inr []
  | d :: ss' =>
      match getitem_structure d with
      | inl e => inl e
      | inr v =>
          match len v with
          | inl e => inl e
          | inr n =>
              match cell_sizes ss' with
              | inl e => inl e
              | inr ns => inr (n :: ns)
              end
          end
      end
  end.
End Loop.

(** A small implementation of the interface for the examples: a
    structure is the list of the species on its sites, and its file
    lists them.  It is not pymatgen's code. *)
#[export] Instance sites_lib : StructureLib (list string) := {|
  num_sites := length;
  cif := foldr (λ sp r, sp +:+ " " +:+ r) EmptyString
|}.

(** A ranked list as the library returns it, and one whose second
    dictionary lacks the key. *)
Definition ranked : list (dict (Structure:=list string)) := [
  <["energy":=Number 0]> {["structure" := Struct ["Cu"; "Cu"; "Au"; "Au"]]};
  <["energy":=Number 0]> {["structure" := Struct ["Cu"; "Au"; "Cu"; "Au"]]};
  <["energy":=Number (1 # 2)]> {["structure" := Struct ["Au"; "Cu"; "Cu"; "Au"]]}
].

Definition first_candidate : dict (Structure:=list string) :=
  {["structure" := Struct ["Cu"; "Cu"; "Au"; "Au"]]}.

Definition no_structure : dict (Structure:=list string) :=
  {["energy" := Number 0]}.

Definition last_candidate : dict (Structure:=list string) :=
  {["structure" := Struct ["Au"; "Cu"; "Cu"; "Au"]]}.

Definition broken : list (dict (Structure:=list string)) :=
  [first_candidate] ++ no_structure :: [last_candidate].

(** A dictionary with a string where the structure should be. *)
Definition mislabelled : dict (Structure:=list string) :=
  {["structure" := Text "CuAu"]}.
End Ordering.

(** ** More sample repositories *)
Module Samples.
Import Flat.

(** The sample in the opposite order. *)
Definition reordered : state comp := State {[ 0 := reverse sample ]} 0.

(** The sample without its carbon dioxide. *)
Definition without_CO2 : state comp :=
  State {[ 0 := filter (λ e, entry_id e ≠ "CO2") sample ]} 0.

(** The sample with one more polymorph of CaO at its end. *)
Definition CaO_new : entry comp :=
  Entry "CaO-new" [("Ca", 8); ("O", 8)] (-6500 # 1000).

Definition grown : state comp := State {[ 0 := sample ++ [CaO_new] ]} 0.

(** An empty repository. *)
Definition empty : state comp := State {[ 0 := [] ]} 0.

(** Three entries of CaO, the second with an energy that is not a
    number. *)
Definition CaO_A : entry comp := Entry "A" [("Ca", 1); ("O", 1)] (-1 # 1).
Definition CaO_N : entry comp := Entry "N" [("Ca", 1); ("O", 1)] NaN.
Definition CaO_B : entry comp := Entry "B" [("Ca", 1); ("O", 1)] (-2 # 1).

Definition with_NaN : state comp := State {[ 0 := [CaO_A; CaO_N; CaO_B] ]} 0.
End Samples.

(** * Properties *)

(** ** The ascending stable arrangement *)

Lemma Qltb_lt (x y : Q) : Qltb x y = true ↔ (x < y)%Q.
Proof.
  unfold Qltb. rewrite negb_true_iff, <-not_true_iff_false, Qle_bool_iff.
  split; [apply Qnot_le_lt | apply Qlt_not_le].
Qed.

Lemma Qltb_ge (x y : Q) : Qltb x y = false ↔ (y <= x)%Q.
Proof. unfold Qltb. by rewrite negb_false_iff, Qle_bool_iff. Qed.

Section sorted_facts.
Context {A : Type} (key : A → Q).

#[export] Instance key_le_trans : Transitive (key_le key).
Proof. intros a b c. apply Qle_trans. Qed.

Lemma insert_by_Permutation (x : A) (l : list A) :
  insert_by key x l ≡ₚ x :: l.
Proof.
  induction l as [|y l IH]; simpl; [done|].
  destruct (Qltb (key y) (key x)); [|done].
  by rewrite IH, Permutation_swap.
Qed.

Lemma stable_sort_Permutation (l : list A) : stable_sort key l ≡ₚ l.
Proof.
  induction l as [|x l IH]; simpl; [done|].
  by rewrite insert_by_Permutation, IH.
Qed.

Lemma insert_by_HdRel (a x : A) (l : list A) :
  key_le key a x → HdRel (key_le key) a l →
  HdRel (key_le key) a (insert_by key x l).
Proof.
  intros Hax Hal. destruct l as [|y l]; simpl; [by constructor|].
  destruct (Qltb (key y) (key x)); constructor; [|done].
  by inversion Hal.
Qed.

Lemma insert_by_Sorted (x : A) (l : list A) :
  Sorted (key_le key) l → Sorted (key_le key) (insert_by key x l).
Proof.
  induction 1 as [|y l Hl IH Hy]; simpl; [by repeat constructor|].
  destruct (Qltb (key y) (key x)) eqn:Hlt.
  - constructor; [done|]. apply insert_by_HdRel; [|done].
    apply Qlt_le_weak. by apply Qltb_lt.
  - constructor; [by constructor|]. constructor. by apply Qltb_ge.
Qed.

Lemma stable_sort_Sorted (l : list A) : Sorted (key_le key) (stable_sort key l).
Proof.
  induction l as [|x l IH]; simpl; [constructor|].
  by apply insert_by_Sorted.
Qed.

(** Stability: the elements of any one key keep their order.  An
    element moves only past elements of a smaller key. *)
#[export] Instance has_key_dec (q : Q) (a : A) : Decision (has_key key q a).
Proof. apply Qeq_dec. Defined.

Lemma insert_by_filter (q : Q) (x : A) (l : list A) :
  filter (has_key key q) (insert_by key x l)
  = filter (has_key key q) (x :: l).
Proof.
  induction l as [|y l IH]; simpl; [done|].
  destruct (Qltb (key y) (key x)) eqn:Hlt; [|done].
  apply Qltb_lt in Hlt. rewrite !filter_cons in *.
  destruct (decide (has_key key q y)) as [Hy|Hy],
    (decide (has_key key q x)) as [Hx|Hx]; try congruence.
  unfold has_key in *. rewrite Hy, Hx in Hlt.
  by apply Qlt_irrefl in Hlt.
Qed.

Lemma stable_sort_stable (q : Q) (l : list A) :
  filter (has_key key q) (stable_sort key l) = filter (has_key key q) l.
Proof.
  induction l as [|x l IH]; simpl; [done|].
  by rewrite insert_by_filter, !filter_cons, IH.
Qed.

(** Being ascending and stable determines the result. *)
Lemma stable_sorted_unique (l1 l2 : list A) :
  Sorted (key_le key) l1 → Sorted (key_le key) l2 →
  (∀ q, filter (has_key key q) l1 = filter (has_key key q) l2) →
  l1 = l2.
Proof.
  intros Hs1. revert l2.
  induction Hs1 as [|x t1 Ht1 IH Hx]; intros l2 Hs2 Hf.
  { destruct l2 as [|y t2]; [done|].
    specialize (Hf (key y)). rewrite filter_cons_True in Hf; [done|].
    unfold has_key; reflexivity. }
  destruct Hs2 as [|y t2 Ht2 Hy].
  { specialize (Hf (key x)). rewrite filter_cons_True in Hf; [done|].
    unfold has_key; reflexivity. }
  assert (Hxx : has_key key (key x) x) by (unfold has_key; reflexivity).
  assert (Hyy : has_key key (key y) y) by (unfold has_key; reflexivity).
  destruct (decide (has_key key (key x) y)) as [Hxy|Hxy].
  - pose proof (Hf (key x)) as Hh.
    rewrite !filter_cons_True in Hh by done.
    injection Hh as -> _. f_equal. apply IH; [done|].
    intros q. specialize (Hf q). rewrite !filter_cons in Hf.
    destruct (decide (has_key key q y)); congruence.
  - exfalso. apply Hxy. unfold has_key. apply Qle_antisym.
    + assert (x ∈ y :: t2) as Hin.
      { apply (list_elem_of_filter (has_key key (key x))).
        rewrite <-(Hf (key x)), filter_cons_True by done. left. }
      apply elem_of_cons in Hin as [->|Hin]; [apply Qle_refl|].
      assert (Hss : StronglySorted (key_le key) (y :: t2))
        by (apply Sorted_StronglySorted; [apply _|by constructor]).
      apply StronglySorted_cons in Hss as [Hall _].
      by apply (proj1 (Forall_forall _ _) Hall).
    + assert (y ∈ x :: t1) as Hin.
      { apply (list_elem_of_filter (has_key key (key y))).
        rewrite (Hf (key y)), filter_cons_True by done. left. }
      apply elem_of_cons in Hin as [->|Hin]; [apply Qle_refl|].
      assert (Hss : StronglySorted (key_le key) (x :: t1))
        by (apply Sorted_StronglySorted; [apply _|by constructor]).
      apply StronglySorted_cons in Hss as [Hall _].
      by apply (proj1 (Forall_forall _ _) Hall).
Qed.

Lemma stable_sort_unique (l l' : list A) :
  Sorted (key_le key) l' →
  (∀ q, filter (has_key key q) l' = filter (has_key key q) l) →
  l' = stable_sort key l.
Proof.
  intros Hs Hf. apply stable_sorted_unique; [done|apply stable_sort_Sorted|].
  intros q. by rewrite stable_sort_stable.
Qed.

Lemma stable_sort_nil_inv (l : list A) : stable_sort key l = [] → l = [].
Proof.
  intros Hs. apply Permutation_nil_r. by rewrite <-Hs, stable_sort_Permutation.
Qed.

(** The first element of the result is the first element of the
    argument that has the least key. *)
Lemma stable_sort_head (l : list A) (e : A) :
  head (stable_sort key l) = Some e →
  ∃ l1 l2, l = l1 ++ e :: l2 ∧
    Forall (λ y, (key e < key y)%Q) l1 ∧
    Forall (λ y, (key e <= key y)%Q) l2.
Proof.
  revert e. induction l as [|x l IH]; intros e; simpl; [done|].
  destruct (stable_sort key l) as [|y s] eqn:Hs; simpl.
  { intros [= <-]. apply stable_sort_nil_inv in Hs as ->. by exists [], []. }
  destruct (IH y eq_refl) as (l1 & l2 & -> & Hl1 & Hl2).
  destruct (Qltb (key y) (key x)) eqn:Hlt; simpl; intros [= <-].
  - apply Qltb_lt in Hlt. exists (x :: l1), l2. by repeat constructor.
  - apply Qltb_ge in Hlt. exists [], (l1 ++ y :: l2).
    split_and!; [done|constructor|].
    apply Forall_app; split; [|constructor; [done|]].
    + eapply Forall_impl; [exact Hl1|]. intros z Hz; simpl in Hz.
      eapply Qle_trans; [exact Hlt|]. by apply Qlt_le_weak.
    + eapply Forall_impl; [exact Hl2|]. intros z Hz; simpl in Hz.
      by eapply Qle_trans.
Qed.

Lemma stable_sort_head_elem_of (l : list A) (e : A) :
  head (stable_sort key l) = Some e → e ∈ l.
Proof.
  intros (l1 & l2 & -> & _)%stable_sort_head. set_solver.
Qed.

Lemma stable_sort_head_least (l : list A) (e e' : A) :
  head (stable_sort key l) = Some e → e' ∈ l → (key e <= key e')%Q.
Proof.
  intros (l1 & l2 & -> & Hl1 & Hl2)%stable_sort_head Hin.
  rewrite Forall_forall in Hl1, Hl2.
  apply elem_of_app in Hin as [Hin|Hin].
  - by apply Qlt_le_weak, Hl1.
  - apply elem_of_cons in Hin as [->|Hin]; [apply Qle_refl|by apply Hl2].
Qed.
End sorted_facts.

(** ** The builtin [sorted] *)

(** *** Whatever the comparison, a rearrangement *)

Section list_sort_any.
Context {A : Type} (lt : A → A → bool).

Lemma binary_insert_Permutation (pre : list A) (pivot : A) :
  binary_insert lt pre pivot ≡ₚ pivot :: pre.
Proof.
  unfold binary_insert. by rewrite <-Permutation_middle, take_drop.
Qed.

Lemma binarysort_cons (pre rest : list A) (x : A) :
  binarysort lt pre (x :: rest) = binarysort lt (binary_insert lt pre x) rest.
Proof. reflexivity. Qed.

Lemma binarysort_Permutation (pre rest : list A) :
  binarysort lt pre rest ≡ₚ pre ++ rest.
Proof.
  revert pre. induction rest as [|x rest IH]; intros pre.
  { by rewrite app_nil_r. }
  rewrite binarysort_cons, IH, binary_insert_Permutation.
  by rewrite <-Permutation_middle.
Qed.

Lemma list_sort_Permutation (l : list A) : list_sort lt l ≡ₚ l.
Proof.
  destruct l as [|x [|y l]]; [done..|]. unfold list_sort.
  destruct (count_run lt (x :: y :: l)) as [n []];
    by rewrite binarysort_Permutation, ?reverse_Permutation, take_drop.
Qed.

Lemma bisect_S (fuel : nat) (pivot : A) (pre : list A) (l r : nat) :
  bisect lt (S fuel) pivot pre l r
  = match pre !! (l + (r - l) / 2) with
    | None => l
    | Some x =>
        if lt pivot x
        then (if l <? l + (r - l) / 2
              then bisect lt fuel pivot pre l (l + (r - l) / 2) else l)
        else (if S (l + (r - l) / 2) <? r
              then bisect lt fuel pivot pre (S (l + (r - l) / 2)) r
              else S (l + (r - l) / 2))
    end.
Proof. reflexivity. Qed.

(** The first run, seen from its first element. *)
Lemma count_run_cons (x y : A) (l : list A) :
  count_run lt (x :: y :: l)
  = if lt y x then (S (run_down lt x (y :: l)), true)
    else (S (run_up lt x (y :: l)), false).
Proof. simpl. by destruct (lt y x). Qed.
End list_sort_any.

(** *** The comparison counts on the elements of the list only *)

Section list_sort_ext.
Context {A : Type} (lt lt' : A → A → bool).

Lemma run_up_ext (prev : A) (l : list A) :
  (∀ a b, a ∈ prev :: l → b ∈ prev :: l → lt a b = lt' a b) →
  run_up lt prev l = run_up lt' prev l.
Proof.
  revert prev. induction l as [|x l IH]; intros prev Hext; [done|]. simpl.
  rewrite (Hext x prev) by repeat constructor.
  destruct (lt' x prev); [done|]. f_equal. apply IH.
  intros a b Ha Hb. apply Hext; by right.
Qed.

Lemma run_down_ext (prev : A) (l : list A) :
  (∀ a b, a ∈ prev :: l → b ∈ prev :: l → lt a b = lt' a b) →
  run_down lt prev l = run_down lt' prev l.
Proof.
  revert prev. induction l as [|x l IH]; intros prev Hext; [done|]. simpl.
  rewrite (Hext x prev) by repeat constructor.
  destruct (lt' x prev); [|done]. f_equal. apply IH.
  intros a b Ha Hb. apply Hext; by right.
Qed.

Lemma count_run_ext (l : list A) :
  (∀ a b, a ∈ l → b ∈ l → lt a b = lt' a b) →
  count_run lt l = count_run lt' l.
Proof.
  intros Hext. destruct l as [|x [|y l]]; [done..|].
  rewrite !count_run_cons, (Hext y x) by repeat constructor.
  by rewrite (run_up_ext x (y :: l)), (run_down_ext x (y :: l)).
Qed.

Lemma bisect_ext (fuel : nat) (pivot : A) (pre : list A) (l r : nat) :
  (∀ a b, a ∈ pivot :: pre → b ∈ pivot :: pre → lt a b = lt' a b) →
  bisect lt fuel pivot pre l r = bisect lt' fuel pivot pre l r.
Proof.
  intros Hext. revert l r. induction fuel as [|fuel IH]; intros l r; [done|].
  rewrite !bisect_S.
  destruct (pre !! (l + (r - l) / 2)) as [x|] eqn:Hx; [|done].
  rewrite (Hext pivot x).
  - by rewrite !IH.
  - left.
  - right. by eapply list_elem_of_lookup_2.
Qed.

Lemma binary_insert_ext (pre : list A) (pivot : A) :
  (∀ a b, a ∈ pivot :: pre → b ∈ pivot :: pre → lt a b = lt' a b) →
  binary_insert lt pre pivot = binary_insert lt' pre pivot.
Proof. intros Hext. unfold binary_insert. by rewrite bisect_ext. Qed.

Lemma binarysort_ext (pre rest : list A) :
  (∀ a b, a ∈ pre ++ rest → b ∈ pre ++ rest → lt a b = lt' a b) →
  binarysort lt pre rest = binarysort lt' pre rest.
Proof.
  revert pre. induction rest as [|x rest IH]; intros pre Hext; [done|].
  rewrite !binarysort_cons, binary_insert_ext.
  - apply IH. intros a b Ha Hb.
    rewrite binary_insert_Permutation in Ha, Hb.
    apply Hext; by rewrite <-Permutation_middle.
  - intros a b Ha Hb. rewrite elem_of_cons in Ha, Hb.
    apply Hext; rewrite <-Permutation_middle, elem_of_cons, elem_of_app;
      tauto.
Qed.

Lemma list_sort_ext (l : list A) :
  (∀ a b, a ∈ l → b ∈ l → lt a b = lt' a b) →
  list_sort lt l = list_sort lt' l.
Proof.
  intros Hext. destruct l as [|x [|y l]]; [done..|]. unfold list_sort.
  rewrite (count_run_ext _ Hext).
  destruct (count_run lt' (x :: y :: l)) as [n d].
  apply binarysort_ext. intros a b Ha Hb. apply Hext.
  - rewrite <-(take_drop n (x :: y :: l)).
    destruct d; by rewrite ?reverse_Permutation in Ha.
  - rewrite <-(take_drop n (x :: y :: l)).
    destruct d; by rewrite ?reverse_Permutation in Hb.
Qed.
End list_sort_ext.

(** *** With numbers as keys, the ascending stable arrangement *)

Lemma Sorted_impl {A : Type} (R R' : relation A) (l : list A) :
  (∀ a b, R a b → R' a b) → Sorted R l → Sorted R' l.
Proof.
  intros HR. induction 1 as [|x l Hl IH Hx]; constructor; [done|].
  destruct Hx; constructor. by apply HR.
Qed.

Lemma filter_none {A : Type} (P : A → Prop) `{!∀ x, Decision (P x)}
    (l : list A) :
  (∀ x, x ∈ l → ¬ P x) → filter P l = [].
Proof.
  induction l as [|x l IH]; intros Hno; [done|].
  rewrite filter_cons_False by (apply Hno; left).
  apply IH. intros y Hy. apply Hno. by right.
Qed.

Section list_sort_numbers.
Context {A : Type} (key : A → Q).
Local Abbreviation lt := (λ a b : A, Qltb (key a) (key b)).
Local Abbreviation key_gt := (λ a b : A, (key b < key a)%Q).

#[local] Instance key_gt_trans : Transitive key_gt.
Proof. intros a b c Hab Hbc. by eapply Qlt_trans. Qed.

Lemma StronglySorted_lookup_le (pre : list A) (i j : nat) (x y : A) :
  StronglySorted (key_le key) pre → i ≤ j →
  pre !! i = Some x → pre !! j = Some y → (key x <= key y)%Q.
Proof.
  intros Hs. revert i j.
  induction Hs as [|a pre Hs IH Ha]; intros i j Hij Hi Hj; [done|].
  destruct i as [|i], j as [|j]; simplify_eq/=.
  - apply Qle_refl.
  - by apply (proj1 (Forall_lookup _ _) Ha j y).
  - lia.
  - apply (IH i j); [lia|done..].
Qed.

(** The run [count_run] finds is ascending, or strictly descending. *)
Lemma run_up_Sorted (x : A) (l : list A) :
  Sorted (key_le key) (take (S (run_up lt x l)) (x :: l)).
Proof.
  revert x. induction l as [|y l IH]; intros x; simpl.
  { by repeat constructor. }
  destruct (Qltb (key y) (key x)) eqn:Hlt; simpl.
  { by repeat constructor. }
  constructor; [apply IH|]. constructor. by apply Qltb_ge.
Qed.

Lemma run_down_Sorted (x : A) (l : list A) :
  Sorted key_gt (take (S (run_down lt x l)) (x :: l)).
Proof.
  revert x. induction l as [|y l IH]; intros x; simpl.
  { by repeat constructor. }
  destruct (Qltb (key y) (key x)) eqn:Hlt; simpl.
  - constructor; [apply IH|]. constructor. by apply Qltb_lt.
  - by repeat constructor.
Qed.

(** Reversing a strictly descending run makes it ascending and moves
    no two elements of one key past each other: there are no two. *)
Lemma descending_filter (q : Q) (run : list A) :
  StronglySorted key_gt run →
  filter (has_key key q) (reverse run) = filter (has_key key q) run.
Proof.
  induction 1 as [|x run Hs IH Hx]; [done|].
  rewrite reverse_cons, filter_app, IH, !filter_cons, filter_nil.
  destruct (decide (has_key key q x)) as [Hq|Hq]; [|by rewrite app_nil_r].
  assert (filter (has_key key q) run = []) as ->; [|done].
  apply filter_none. intros y Hy Hqy.
  rewrite Forall_forall in Hx. specialize (Hx y Hy). simpl in Hx.
  unfold has_key in *. rewrite Hq, Hqy in Hx. by apply Qlt_irrefl in Hx.
Qed.

Lemma descending_reverse_Sorted (run : list A) :
  Sorted key_gt run → Sorted (key_le key) (reverse run).
Proof.
  intros Hs%Sorted_reverse. eapply Sorted_impl; [|exact Hs].
  intros a b Hab. unfold flip in Hab. by apply Qlt_le_weak.
Qed.

(** The binary search: before the place found no key is greater than
    the pivot's, from it on every key is. *)
Lemma bisect_spec (fuel : nat) (pivot : A) (pre : list A) (l r : nat) :
  StronglySorted (key_le key) pre →
  l < r → r ≤ length pre → r - l ≤ fuel →
  (∀ i x, i < l → pre !! i = Some x → (key x <= key pivot)%Q) →
  (∀ i x, r ≤ i → pre !! i = Some x → (key pivot < key x)%Q) →
  (∀ i x, i < bisect lt fuel pivot pre l r → pre !! i = Some x →
          (key x <= key pivot)%Q) ∧
  (∀ i x, bisect lt fuel pivot pre l r ≤ i → pre !! i = Some x →
          (key pivot < key x)%Q).
Proof.
  intros Hs. revert l r.
  induction fuel as [|fuel IH]; intros l r Hlr Hr Hfuel Hlow Hhigh; [lia|].
  rewrite bisect_S.
  assert ((r - l) / 2 < r - l) as Hhalf by (apply Nat.div_lt; lia).
  set (p := l + (r - l) / 2) in *.
  destruct (lookup_lt_is_Some_2 pre p) as [x Hx]; [lia|]. rewrite Hx.
  destruct (Qltb (key pivot) (key x)) eqn:Hlt.
  - apply Qltb_lt in Hlt.
    assert (∀ i y, p ≤ i → pre !! i = Some y → (key pivot < key y)%Q)
      as Hhigh'.
    { intros i y Hi Hy. eapply Qlt_le_trans; [exact Hlt|].
      by eapply (StronglySorted_lookup_le pre p i). }
    destruct (l <? p) eqn:Hlp.
    + apply Nat.ltb_lt in Hlp. apply IH; [lia..|done|done].
    + apply Nat.ltb_ge in Hlp. split; [done|].
      intros i y Hi. apply Hhigh'. lia.
  - apply Qltb_ge in Hlt.
    assert (∀ i y, i < S p → pre !! i = Some y → (key y <= key pivot)%Q)
      as Hlow'.
    { intros i y Hi Hy. eapply Qle_trans; [|exact Hlt].
      eapply (StronglySorted_lookup_le pre i p); [done|lia|done..]. }
    destruct (S p <? r) eqn:Hpr.
    + apply Nat.ltb_lt in Hpr. apply IH; [lia..|done|done].
    + apply Nat.ltb_ge in Hpr. split; [done|].
      intros i y Hi. apply Hhigh. lia.
Qed.

Lemma binary_insert_place (pre : list A) (pivot : A) :
  StronglySorted (key_le key) pre →
  ∃ m, binary_insert lt pre pivot = take m pre ++ pivot :: drop m pre ∧
    Forall (λ x, (key x <= key pivot)%Q) (take m pre) ∧
    Forall (λ x, (key pivot < key x)%Q) (drop m pre).
Proof.
  intros Hs. exists (bisect lt (length pre) pivot pre 0 (length pre)).
  split; [done|].
  destruct pre as [|a pre'] eqn:Hpre; [by split; constructor|].
  rewrite <-Hpre in *.
  assert (0 < length pre) as Hlen by (rewrite Hpre; simpl; lia).
  destruct (bisect_spec (length pre) pivot pre 0 (length pre))
    as [Hlow Hhigh]; [done|lia..| | |].
  - intros i x Hi. lia.
  - intros i x Hi Hx. apply lookup_lt_Some in Hx. lia.
  - split; apply Forall_lookup; intros i x Hx.
    + apply lookup_take_Some in Hx as [Hx Hi]. by eapply Hlow.
    + rewrite lookup_drop in Hx. eapply Hhigh; [|exact Hx]. lia.
Qed.

Lemma binary_insert_StronglySorted (pre : list A) (pivot : A) :
  StronglySorted (key_le key) pre →
  StronglySorted (key_le key) (binary_insert lt pre pivot).
Proof.
  intros Hs.
  destruct (binary_insert_place pre pivot Hs) as (m & -> & Hlow & Hhigh).
  rewrite <-(take_drop m pre) in Hs.
  apply StronglySorted_app in Hs as (_ & Hs1 & Hs2).
  rewrite Forall_forall in Hlow, Hhigh.
  apply StronglySorted_app. split_and!; [|done|].
  - intros x1 x2 Hx1 [->|Hx2]%elem_of_cons; [by apply Hlow|].
    eapply Qle_trans; [by apply Hlow|]. by apply Qlt_le_weak, Hhigh.
  - constructor; [done|]. apply Forall_forall. intros x Hx.
    by apply Qlt_le_weak, Hhigh.
Qed.

Lemma binary_insert_filter (q : Q) (pre : list A) (pivot : A) :
  StronglySorted (key_le key) pre →
  filter (has_key key q) (binary_insert lt pre pivot)
  = filter (has_key key q) (pre ++ [pivot]).
Proof.
  intros Hs.
  destruct (binary_insert_place pre pivot Hs) as (m & -> & Hlow & Hhigh).
  rewrite <-(take_drop m pre) at 3.
  rewrite !filter_app, !filter_cons, filter_nil, <-app_assoc. f_equal.
  destruct (decide (has_key key q pivot)) as [Hq|Hq]; [|by rewrite app_nil_r].
  assert (filter (has_key key q) (drop m pre) = []) as ->; [|done].
  apply filter_none. intros y Hy Hqy.
  rewrite Forall_forall in Hhigh. specialize (Hhigh y Hy). simpl in Hhigh.
  unfold has_key in *. rewrite Hq, Hqy in Hhigh. by apply Qlt_irrefl in Hhigh.
Qed.

Lemma binarysort_StronglySorted (pre rest : list A) :
  StronglySorted (key_le key) pre →
  StronglySorted (key_le key) (binarysort lt pre rest).
Proof.
  revert pre. induction rest as [|x rest IH]; intros pre Hs; [done|].
  rewrite binarysort_cons. by apply IH, binary_insert_StronglySorted.
Qed.

Lemma binarysort_filter (q : Q) (pre rest : list A) :
  StronglySorted (key_le key) pre →
  filter (has_key key q) (binarysort lt pre rest)
  = filter (has_key key q) (pre ++ rest).
Proof.
  revert pre. induction rest as [|x rest IH]; intros pre Hs.
  { by rewrite app_nil_r. }
  rewrite binarysort_cons, IH by by apply binary_insert_StronglySorted.
  rewrite filter_app, binary_insert_filter by done.
  by rewrite <-filter_app, <-app_assoc.
Qed.

Lemma list_sort_Sorted (l : list A) : Sorted (key_le key) (list_sort lt l).
Proof.
  destruct l as [|x [|y l]]; [by repeat constructor..|]. unfold list_sort.
  rewrite count_run_cons. apply StronglySorted_Sorted.
  destruct (Qltb (key y) (key x)); apply binarysort_StronglySorted;
    (apply Sorted_StronglySorted; [apply _|]).
  - apply descending_reverse_Sorted, run_down_Sorted.
  - apply run_up_Sorted.
Qed.

Lemma list_sort_filter (q : Q) (l : list A) :
  filter (has_key key q) (list_sort lt l) = filter (has_key key q) l.
Proof.
  destruct l as [|x [|y l]]; [done..|]. unfold list_sort.
  rewrite count_run_cons.
  destruct (Qltb (key y) (key x)).
  - rewrite binarysort_filter.
    + rewrite filter_app, descending_filter, <-filter_app, take_drop; [done|].
      apply Sorted_StronglySorted; [apply _|]. apply run_down_Sorted.
    + apply Sorted_StronglySorted; [apply _|].
      apply descending_reverse_Sorted, run_down_Sorted.
  - rewrite binarysort_filter; [by rewrite take_drop|].
    apply Sorted_StronglySorted; [apply _|]. apply run_up_Sorted.
Qed.

(** So the two steps give what insertion from the right end gives. *)
Lemma list_sort_stable_sort (l : list A) : list_sort lt l = stable_sort key l.
Proof.
  apply stable_sort_unique; [apply list_sort_Sorted|].
  intros q. apply list_sort_filter.
Qed.
End list_sort_numbers.

(** *** The builtin on floats *)

Section sorted_facts_float.
Context {A : Type} (key : A → float).

Lemma sorted_Permutation (l : list A) : sorted key l ≡ₚ l.
Proof. apply list_sort_Permutation. Qed.

Lemma sorted_nil_inv (l : list A) : sorted key l = [] → l = [].
Proof.
  intros Hs. apply Permutation_nil_r. by rewrite <-Hs, sorted_Permutation.
Qed.

Lemma float_ltb_to_Q (x y : float) :
  x ≠ NaN → y ≠ NaN → float_ltb x y = Qltb (to_Q x) (to_Q y).
Proof. by destruct x, y. Qed.

(** Without a NaN among the keys, [sorted] gives the ascending stable
    arrangement. *)
Lemma sorted_stable_sort (l : list A) :
  Forall (λ a, key a ≠ NaN) l →
  sorted key l = stable_sort (λ a, to_Q (key a)) l.
Proof.
  intros Hall. rewrite Forall_forall in Hall.
  rewrite <-(list_sort_stable_sort (λ a, to_Q (key a))).
  apply list_sort_ext. intros a b Ha Hb. apply float_ltb_to_Q; by apply Hall.
Qed.
End sorted_facts_float.

(** ** Runs of the Python fragment *)

Section run_facts.
Context {Comp : Type}.
Local Abbreviation entry := (entry Comp).
Local Abbreviation M := (M Comp).
Implicit Types (σ : state Comp) (l : loc) (xs : list entry).

Lemma bind_OK {A B : Type} (m : M A) (k : A → M B) σ σ' (a : A) :
  m σ = (OK a, σ') → (m ≫= k) σ = k a σ'.
Proof. unfold mbind, M_bind. by intros ->. Qed.

Lemma bind_Raise {A B : Type} (m : M A) (k : A → M B) σ σ' e :
  m σ = (Raise e, σ') → (m ≫= k) σ = (Raise e, σ').
Proof. unfold mbind, M_bind. by intros ->. Qed.

Lemma load_Some σ l xs : heap σ !! l = Some xs → load l σ = (OK xs, σ).
Proof. unfold load. by intros ->. Qed.

Lemma load_None σ l :
  heap σ !! l = None → load l σ = (Raise NameError, σ).
Proof. unfold load. by intros ->. Qed.

Lemma new_loc_fresh σ : heap σ !! new_loc σ = None.
Proof. apply not_elem_of_dom, is_fresh. Qed.

Lemma load_alloc σ xs : load (new_loc σ) (store xs σ) = (OK xs, store xs σ).
Proof. apply load_Some. simpl. apply lookup_insert_eq. Qed.

(** *** Frame: what a run leaves alone *)

#[export] Instance extends_refl : Reflexive (@extends Comp).
Proof. by intros σ. Qed.

#[export] Instance extends_trans : Transitive (@extends Comp).
Proof.
  intros σ1 σ2 σ3 [Hg1 Hh1] [Hg2 Hh2]. split; [congruence|by etrans].
Qed.

Lemma extends_store σ xs : extends σ (store xs σ).
Proof. split; [done|]. apply insert_subseteq, new_loc_fresh. Qed.

Lemma extends_lookup σ σ' l xs :
  extends σ σ' → heap σ !! l = Some xs → heap σ' !! l = Some xs.
Proof. intros [_ Hsub] Hl. by eapply lookup_weaken. Qed.

Lemma only_allocates_ret {A : Type} (a : A) : only_allocates (mret a : M A).
Proof. by intros σ. Qed.

Lemma only_allocates_raise {A : Type} e : only_allocates (raise e : M A).
Proof. by intros σ. Qed.

Lemma only_allocates_lift {A : Type} (r : result A) :
  only_allocates (lift r : M A).
Proof. by intros σ. Qed.

Lemma only_allocates_bind {A B : Type} (m : M A) (k : A → M B) :
  only_allocates m → (∀ a, only_allocates (k a)) →
  only_allocates (m ≫= k).
Proof.
  intros Hm Hk σ. unfold mbind, M_bind.
  specialize (Hm σ). destruct (m σ) as [[a|e] σ']; simpl in *; [|done].
  etrans; [exact Hm|apply Hk].
Qed.

Lemma only_allocates_global : only_allocates (@global_all_entries Comp).
Proof. by intros σ. Qed.

Lemma only_allocates_load l : only_allocates (load (Comp:=Comp) l).
Proof. intros σ. unfold load. by destruct (heap σ !! l). Qed.

Lemma only_allocates_alloc xs : only_allocates (alloc xs).
Proof. intros σ. apply extends_store. Qed.
End run_facts.

Create HintDb frame discriminated.
#[export] Hint Resolve only_allocates_ret only_allocates_raise
  only_allocates_lift only_allocates_global only_allocates_load
  only_allocates_alloc : frame.
#[export] Hint Extern 2 (only_allocates (_ ≫= _)) =>
  apply only_allocates_bind; [|intros ?] : frame.
#[export] Hint Extern 3 (only_allocates (match ?x with _ => _ end)) =>
  destruct x : frame.

Section python_frame.
Context {Comp : Type}.
Local Abbreviation entry := (entry Comp).
Local Abbreviation M := (M Comp).

(** The loop of a comprehension fills the list the comprehension has
    created: what there was before that stays as it was. *)
Lemma extends_append (σ0 σ : state Comp) r x :
  heap σ0 !! r = None → extends σ0 σ → extends σ0 (append r x σ).2.
Proof.
  intros Hr [Hg Hsub]. unfold append.
  destruct (heap σ !! r) as [ys|]; simpl; [|done].
  split; [done|]. by apply insert_subseteq_r.
Qed.

Lemma extends_comprehension (cond : entry → M bool) r xs (σ0 σ : state Comp) :
  (∀ x, only_allocates (cond x)) →
  heap σ0 !! r = None → extends σ0 σ →
  extends σ0 (comprehension cond r xs σ).2.
Proof.
  intros Hc Hr. revert σ. induction xs as [|x xs IH]; intros σ Hext; [done|].
  simpl. unfold mbind, M_bind.
  pose proof (Hc x σ) as Hx.
  destruct (cond x σ) as [[b|e] σ1]; simpl in Hx; [|by etrans].
  assert (extends σ0 σ1) as Hext1 by by etrans.
  destruct b.
  - pose proof (extends_append σ0 σ1 r x Hr Hext1) as Ha.
    destruct (append r x σ1) as [[[]|e] σ2]; simpl in Ha; [by apply IH|done].
  - unfold mret, M_ret. by apply IH.
Qed.

Lemma only_allocates_list_comprehension (cond : entry → M bool) l :
  (∀ x, only_allocates (cond x)) →
  only_allocates (list_comprehension cond l).
Proof.
  intros Hc σ. unfold list_comprehension, mbind, M_bind, load, alloc.
  destruct (heap σ !! l) as [xs|]; [|done].
  pose proof (extends_comprehension cond (new_loc σ) xs σ (store [] σ) Hc
                (new_loc_fresh σ) (extends_store σ [])) as Hext.
  by destruct (comprehension cond (new_loc σ) xs (store [] σ)) as [[[]|e] σ1].
Qed.

Lemma only_allocates_sorted_builtin l (key : entry → float) :
  only_allocates (sorted_builtin l key).
Proof. unfold sorted_builtin. auto with frame. Qed.

Lemma only_allocates_getitem l i : only_allocates (getitem (Comp:=Comp) l i).
Proof. unfold getitem. auto with frame. Qed.
End python_frame.

(** ** [get_most_stable_entry] *)

Lemma Sorted_impl_Forall {A : Type} (R R' : relation A) (P : A → Prop)
    (l : list A) :
  (∀ a b, P a → P b → R a b → R' a b) →
  Forall P l → Sorted R l → Sorted R' l.
Proof.
  intros HR HP. induction 1 as [|x l Hl IH Hx]; [constructor|].
  apply Forall_cons in HP as [Hpx HP]. constructor; [by apply IH|].
  destruct Hx as [|y l' Hxy]; constructor.
  apply Forall_cons in HP as [Hpy _]. by apply HR.
Qed.

Lemma float_le_to_Q (x y : float) :
  x ≠ NaN → y ≠ NaN → float_le x y ↔ (to_Q x <= to_Q y)%Q.
Proof. by destruct x, y. Qed.

Lemma float_lt_to_Q (x y : float) :
  x ≠ NaN → y ≠ NaN → float_lt x y ↔ (to_Q x < to_Q y)%Q.
Proof. by destruct x, y. Qed.

Lemma float_eq_to_Q (x y : float) :
  x ≠ NaN → y ≠ NaN → float_eq x y ↔ (to_Q x == to_Q y)%Q.
Proof. by destruct x, y. Qed.

Section notebook_facts.
Context {Comp : Type} `{!CompositionLib Comp}.
Local Abbreviation entry := (entry Comp).
Local Abbreviation M := (M Comp).
Local Abbreviation energy := (λ e : entry, to_Q (energy_per_atom e)).
Implicit Types (σ : state Comp) (c : Comp) (es : list entry) (e : entry).

Lemma matches_reduced c e :
  matches c e = true ↔ reduced_formula (composition e) = reduced_formula c.
Proof. apply String.eqb_eq. Qed.

Lemma same_reduced_formula_OK formula c e σ :
  Composition formula = OK c →
  same_reduced_formula formula e σ = (OK (matches c e), σ).
Proof.
  intros Hc. unfold same_reduced_formula, lift, mbind, M_bind. by rewrite Hc.
Qed.

Lemma same_reduced_formula_Raise formula x e σ :
  Composition formula = Raise x →
  same_reduced_formula formula e σ = (Raise x, σ).
Proof.
  intros Hc. unfold same_reduced_formula, lift, mbind, M_bind. by rewrite Hc.
Qed.

(** With a formula the library accepts, the loop of the comprehension
    appends to its list the entries the filter keeps. *)
Lemma comprehension_filter formula c r ys es σ :
  Composition formula = OK c →
  heap σ !! r = Some ys →
  comprehension (same_reduced_formula formula) r es σ
  = (OK (),
     State (<[r:=ys ++ filter (λ e, matches c e = true) es]> (heap σ))
       (all_entries σ)).
Proof.
  intros Hc. revert ys σ. induction es as [|e es IH]; intros ys σ Hr.
  { simpl. rewrite filter_nil, app_nil_r, insert_id by done. by destruct σ. }
  simpl. erewrite bind_OK by by apply same_reduced_formula_OK.
  rewrite filter_cons. destruct (matches c e) eqn:Hm.
  - rewrite decide_True by done.
    erewrite bind_OK; last first.
    { unfold append. by rewrite Hr. }
    rewrite (IH (ys ++ [e])) by apply lookup_insert_eq. simpl.
    by rewrite insert_insert_eq, <-app_assoc.
  - rewrite decide_False by done.
    erewrite bind_OK by reflexivity. by apply IH.
Qed.

Lemma comprehension_Raise formula x r e es σ :
  Composition formula = Raise x →
  comprehension (same_reduced_formula formula) r (e :: es) σ = (Raise x, σ).
Proof.
  intros Hc. simpl.
  by erewrite bind_Raise by by apply same_reduced_formula_Raise.
Qed.

(** The comprehension as a whole: a new list that holds what the filter
    keeps; with no entry to ask about, a new empty list; with a formula
    the library rejects and an entry to ask about, the new list stays
    empty and the library's exception comes out. *)
Lemma list_comprehension_filter formula c es l σ :
  heap σ !! l = Some es →
  Composition formula = OK c →
  list_comprehension (same_reduced_formula formula) l σ
  = (OK (new_loc σ), store (filter (λ e, matches c e = true) es) σ).
Proof.
  intros Hl Hc. unfold list_comprehension.
  erewrite bind_OK by by apply load_Some.
  erewrite bind_OK by reflexivity.
  erewrite bind_OK; last first.
  { apply (comprehension_filter formula c (new_loc σ) []); [done|].
    apply lookup_insert_eq. }
  unfold mret, M_ret, store. simpl. by rewrite insert_insert_eq.
Qed.

Lemma list_comprehension_nil formula l σ :
  heap σ !! l = Some [] →
  list_comprehension (same_reduced_formula formula) l σ
  = (OK (new_loc σ), store [] σ).
Proof.
  intros Hl. unfold list_comprehension.
  erewrite bind_OK by by apply load_Some.
  by erewrite bind_OK by reflexivity.
Qed.

Lemma list_comprehension_Raise formula x e es l σ :
  heap σ !! l = Some (e :: es) →
  Composition formula = Raise x →
  list_comprehension (same_reduced_formula formula) l σ
  = (Raise x, store [] σ).
Proof.
  intros Hl Hc. unfold list_comprehension.
  erewrite bind_OK by by apply load_Some.
  erewrite bind_OK by reflexivity.
  by erewrite bind_Raise by by apply comprehension_Raise.
Qed.

(** The four ways a call can go. *)
Lemma get_most_stable_entry_unbound formula σ :
  heap σ !! all_entries σ = None →
  get_most_stable_entry formula σ = (Raise NameError, σ).
Proof.
  intros Hg. unfold get_most_stable_entry, list_comprehension.
  erewrite bind_OK by reflexivity.
  erewrite bind_Raise; [done|].
  by erewrite bind_Raise by by apply load_None.
Qed.

Lemma get_most_stable_entry_invalid formula x e es σ :
  heap σ !! all_entries σ = Some (e :: es) →
  Composition formula = Raise x →
  get_most_stable_entry formula σ = (Raise x, store [] σ).
Proof.
  intros Hg Hc. unfold get_most_stable_entry.
  erewrite bind_OK by reflexivity.
  by erewrite bind_Raise by by eapply list_comprehension_Raise.
Qed.

Lemma get_most_stable_entry_after formula ys σ :
  list_comprehension (same_reduced_formula formula) (all_entries σ) σ
  = (OK (new_loc σ), store ys σ) →
  get_most_stable_entry formula σ
  = (match sorted energy_per_atom ys with
     | [] => Raise IndexError
     | e :: _ => OK e
     end,
     store (sorted energy_per_atom ys) (store ys σ)).
Proof.
  intros Hys. unfold get_most_stable_entry.
  erewrite bind_OK by reflexivity.
  erewrite (bind_OK (list_comprehension _ _)) by exact Hys.
  erewrite (bind_OK (sorted_builtin _ _)); last first.
  { unfold sorted_builtin. erewrite bind_OK by apply load_alloc. reflexivity. }
  unfold getitem. erewrite bind_OK by apply load_alloc.
  by destruct (sorted energy_per_atom ys).
Qed.

Lemma get_most_stable_entry_empty formula σ :
  heap σ !! all_entries σ = Some [] →
  get_most_stable_entry formula σ = (Raise IndexError, store [] (store [] σ)).
Proof.
  intros Hg.
  by rewrite (get_most_stable_entry_after formula [] σ
                (list_comprehension_nil formula _ σ Hg)).
Qed.

Lemma get_most_stable_entry_run formula c es σ :
  heap σ !! all_entries σ = Some es →
  Composition formula = OK c →
  get_most_stable_entry formula σ
  = (match relevant_entries c es with
     | [] => Raise IndexError
     | e :: _ => OK e
     end,
     store (relevant_entries c es)
       (store (filter (λ e, matches c e = true) es) σ)).
Proof.
  intros Hg Hc.
  by rewrite (get_most_stable_entry_after formula _ σ
               (list_comprehension_filter formula c es _ σ Hg Hc)).
Qed.

(** The sorted list holds the matching entries, each as often as
    [all_entries] does. *)
Lemma relevant_entries_Permutation c es :
  relevant_entries c es ≡ₚ filter (λ e, matches c e = true) es.
Proof. apply sorted_Permutation. Qed.

Lemma elem_of_relevant_entries c es e :
  e ∈ relevant_entries c es ↔
  e ∈ es ∧ reduced_formula (composition e) = reduced_formula c.
Proof.
  rewrite relevant_entries_Permutation, list_elem_of_filter, matches_reduced.
  tauto.
Qed.

Lemma relevant_entries_head c es e0 :
  e0 ∈ es → reduced_formula (composition e0) = reduced_formula c →
  ∃ e, head (relevant_entries c es) = Some e.
Proof.
  intros Hin Hred.
  destruct (relevant_entries c es) as [|e s] eqn:Hrel; [|by exists e].
  assert (e0 ∈ relevant_entries c es) as He0
    by by apply elem_of_relevant_entries.
  rewrite Hrel in He0. by apply elem_of_nil in He0.
Qed.

Lemma relevant_entries_ext c1 c2 es :
  reduced_formula c1 = reduced_formula c2 →
  relevant_entries c1 es = relevant_entries c2 es.
Proof. intros Hred. unfold relevant_entries, matches. by rewrite Hred. Qed.

(** *** When the energies of the matching entries are numbers *)

Lemma matching_numbers c es :
  (∀ e, e ∈ es → reduced_formula (composition e) = reduced_formula c →
        energy_per_atom e ≠ NaN) →
  Forall (λ e, energy_per_atom e ≠ NaN)
    (filter (λ e, matches c e = true) es).
Proof.
  intros Hnum. apply Forall_forall.
  intros e [Hm He]%list_elem_of_filter. apply Hnum; [done|].
  by apply matches_reduced.
Qed.

(** Then the sorted list is the ascending stable arrangement. *)
Lemma relevant_entries_stable_sort c es :
  (∀ e, e ∈ es → reduced_formula (composition e) = reduced_formula c →
        energy_per_atom e ≠ NaN) →
  relevant_entries c es
  = stable_sort energy (filter (λ e, matches c e = true) es).
Proof. intros Hnum. by apply sorted_stable_sort, matching_numbers. Qed.

Lemma relevant_entries_Sorted c es :
  (∀ e, e ∈ es → reduced_formula (composition e) = reduced_formula c →
        energy_per_atom e ≠ NaN) →
  Sorted (λ a b, float_le (energy_per_atom a) (energy_per_atom b))
    (relevant_entries c es).
Proof.
  intros Hnum.
  eapply (Sorted_impl_Forall (key_le energy) _
            (λ e, energy_per_atom e ≠ NaN)).
  - intros a b Ha Hb Hab. by apply float_le_to_Q.
  - rewrite relevant_entries_Permutation. by apply matching_numbers.
  - rewrite relevant_entries_stable_sort by done. apply stable_sort_Sorted.
Qed.

Lemma relevant_entries_least c es e e' :
  (∀ e, e ∈ es → reduced_formula (composition e) = reduced_formula c →
        energy_per_atom e ≠ NaN) →
  head (relevant_entries c es) = Some e →
  e' ∈ es → reduced_formula (composition e') = reduced_formula c →
  float_le (energy_per_atom e) (energy_per_atom e').
Proof.
  intros Hnum Hhd Hin Hred.
  assert (e ∈ relevant_entries c es) as [He Hm]%elem_of_relevant_entries.
  { apply head_Some in Hhd as [s ->]. left. }
  apply float_le_to_Q; [by apply Hnum..|].
  rewrite relevant_entries_stable_sort in Hhd by done.
  eapply (stable_sort_head_least energy); [exact Hhd|].
  apply list_elem_of_filter. by rewrite matches_reduced.
Qed.

(** Which of several entries of least energy comes first: the one that
    comes first in [all_entries]. *)
Lemma relevant_entries_first_least c es e :
  (∀ e, e ∈ es → reduced_formula (composition e) = reduced_formula c →
        energy_per_atom e ≠ NaN) →
  head (relevant_entries c es) = Some e →
  ∃ l1 l2, filter (λ e, matches c e = true) es = l1 ++ e :: l2 ∧
    Forall (λ y, float_lt (energy_per_atom e) (energy_per_atom y)) l1 ∧
    Forall (λ y, float_le (energy_per_atom e) (energy_per_atom y)) l2.
Proof.
  intros Hnum Hhd.
  pose proof (matching_numbers c es Hnum) as Hall.
  rewrite relevant_entries_stable_sort in Hhd by done.
  apply stable_sort_head in Hhd as (l1 & l2 & Hf & H1 & H2).
  exists l1, l2. split; [done|]. rewrite Hf in Hall.
  apply Forall_app in Hall as [Hall1 Hall2].
  apply Forall_cons in Hall2 as [He Hall2].
  rewrite Forall_forall in H1, H2, Hall1, Hall2.
  split; apply Forall_forall; intros y Hy.
  - apply float_lt_to_Q; [done|by apply Hall1|by apply H1].
  - apply float_le_to_Q; [done|by apply Hall2|by apply H2].
Qed.

Lemma only_allocates_get_most_stable_entry formula :
  only_allocates (get_most_stable_entry formula).
Proof.
  unfold get_most_stable_entry.
  apply only_allocates_bind; [auto with frame|intros g].
  apply only_allocates_bind; [|intros l1].
  { apply only_allocates_list_comprehension. intros e.
    unfold same_reduced_formula. auto with frame. }
  apply only_allocates_bind; [|intros l2].
  - apply only_allocates_sorted_builtin.
  - apply only_allocates_getitem.
Qed.
End notebook_facts.

(** * The entry repository of the specification

    The specification's [lowest_energy_entry] is the notebook's
    [get_most_stable_entry], its [entries_for] the sorted list
    [relevant_entries], and its repository the list object the global
    [all_entries] names. *)

Section repository.
Context {Comp : Type} `{!CompositionLib Comp}.
Local Abbreviation entry := (entry Comp).
Implicit Types (σ : state Comp) (c : Comp) (es : list entry) (e : entry).

(** C1, as the code has it: when the repository holds an entry whose
    reduced formula is that of the requested composition, and the energy
    per atom of every such entry is a number, [get_most_stable_entry]
    returns an entry of the repository with that reduced formula whose
    energy per atom is at most that of every such entry; it is the first
    element of the list of matching entries sorted ascending by energy
    per atom. *)
Theorem get_most_stable_entry_lowest formula c σ es e0 :
  heap σ !! all_entries σ = Some es →
  Composition formula = OK c →
  e0 ∈ es →
  reduced_formula (composition e0) = reduced_formula c →
  (∀ e, e ∈ es → reduced_formula (composition e) = reduced_formula c →
        energy_per_atom e ≠ NaN) →
  ∃ e,
    (get_most_stable_entry formula σ).1 = OK e ∧
    e ∈ es ∧
    reduced_formula (composition e) = reduced_formula c ∧
    (∀ e', e' ∈ es →
           reduced_formula (composition e') = reduced_formula c →
           float_le (energy_per_atom e) (energy_per_atom e')) ∧
    head (relevant_entries c es) = Some e ∧
    Sorted (λ a b, float_le (energy_per_atom a) (energy_per_atom b))
      (relevant_entries c es) ∧
    relevant_entries c es ≡ₚ filter (λ e, matches c e = true) es.
Proof.
  intros Hg Hc Hin Hred Hnum.
  destruct (relevant_entries_head c es e0 Hin Hred) as [e Hhd].
  exists e. rewrite (get_most_stable_entry_run formula c es σ Hg Hc).
  assert (e ∈ relevant_entries c es) as [He Hm]%elem_of_relevant_entries.
  { destruct (relevant_entries c es); simplify_eq/=. left. }
  split_and!; try done.
  - simpl. by destruct (relevant_entries c es); simplify_eq/=.
  - intros e'. by apply relevant_entries_least.
  - by apply relevant_entries_Sorted.
  - apply relevant_entries_Permutation.
Qed.

(** C2, as the code has it: when no entry of the repository has the
    reduced formula of the requested composition, the call raises
    [IndexError], the error of indexing the empty list. *)
Theorem get_most_stable_entry_no_entry formula c σ es :
  heap σ !! all_entries σ = Some es →
  Composition formula = OK c →
  (∀ e, e ∈ es → reduced_formula (composition e) ≠ reduced_formula c) →
  (get_most_stable_entry formula σ).1 = Raise IndexError.
Proof.
  intros Hg Hc Hno.
  rewrite (get_most_stable_entry_run formula c es σ Hg Hc). simpl.
  destruct (relevant_entries c es) as [|e s] eqn:Hrel; [done|].
  assert (e ∈ relevant_entries c es) as [He Hm]%elem_of_relevant_entries
    by (rewrite Hrel; left).
  by destruct (Hno e He).
Qed.

(** C9: two formulas whose compositions have the same reduced formula
    give the same run, result and final state alike; and when the
    repository holds an entry of that reduced formula, both calls return
    one and the same entry. *)
Theorem get_most_stable_entry_reduced formula1 formula2 c1 c2 σ :
  Composition formula1 = OK c1 →
  Composition formula2 = OK c2 →
  reduced_formula c1 = reduced_formula c2 →
  get_most_stable_entry formula1 σ = get_most_stable_entry formula2 σ ∧
  ∀ es e0,
    heap σ !! all_entries σ = Some es →
    e0 ∈ es →
    reduced_formula (composition e0) = reduced_formula c1 →
    ∃ e, (get_most_stable_entry formula1 σ).1 = OK e ∧
         (get_most_stable_entry formula2 σ).1 = OK e.
Proof.
  intros Hc1 Hc2 Hred. split.
  - destruct (heap σ !! all_entries σ) as [es|] eqn:Hg.
    + rewrite (get_most_stable_entry_run formula1 c1 es σ Hg Hc1).
      rewrite (get_most_stable_entry_run formula2 c2 es σ Hg Hc2).
      rewrite (relevant_entries_ext c1 c2 es Hred).
      unfold matches. by rewrite Hred.
    + by rewrite !get_most_stable_entry_unbound.
  - intros es e0 Hg Hin Hm.
    destruct (relevant_entries_head c1 es e0 Hin Hm) as [e Hhd].
    exists e.
    rewrite (get_most_stable_entry_run formula1 c1 es σ Hg Hc1).
    rewrite (get_most_stable_entry_run formula2 c2 es σ Hg Hc2).
    rewrite <-(relevant_entries_ext c1 c2 es Hred). simpl.
    by destruct (relevant_entries c1 es); simplify_eq/=.
Qed.

(** C10: a call leaves the repository as it was.  In the state after
    the call, whether it returned or raised, the global [all_entries]
    names the same list object, that object has the same entries in the
    same order, and so has every list object that existed before. *)
Theorem get_most_stable_entry_frame formula σ :
  let σ' := (get_most_stable_entry formula σ).2 in
  all_entries σ' = all_entries σ ∧
  heap σ' !! all_entries σ' = heap σ !! all_entries σ ∧
  ∀ l xs, heap σ !! l = Some xs → heap σ' !! l = Some xs.
Proof.
  intros σ'.
  pose proof (only_allocates_get_most_stable_entry formula σ) as Hext.
  fold σ' in Hext. split_and!.
  - apply Hext.
  - destruct (heap σ !! all_entries σ) as [es|] eqn:Hg.
    + rewrite (proj1 Hext). by eapply extends_lookup.
    + subst σ'. by rewrite get_most_stable_entry_unbound.
  - intros l xs. by apply extends_lookup.
Qed.
End repository.

(** * The sample repository

    The theorems above at the flat formulas and the sample of the
    Ca-C-O system. *)

Section sample_runs.
Import Flat.

(** Asked for [CaCO3], the call returns an entry of least energy among
    the two stored with the cell contents [Ca2C2O6] and [Ca4C4O12]. *)
Lemma get_most_stable_entry_lowest_witness :
  ∃ e,
    (get_most_stable_entry "CaCO3" booted).1 = OK e ∧
    e ∈ sample ∧
    reduced_formula (composition e)
    = reduced_formula [("Ca", 1); ("C", 1); ("O", 3)] ∧
    (∀ e', e' ∈ sample →
           reduced_formula (composition e')
           = reduced_formula [("Ca", 1); ("C", 1); ("O", 3)] →
           float_le (energy_per_atom e) (energy_per_atom e')) ∧
    head (relevant_entries [("Ca", 1); ("C", 1); ("O", 3)] sample) = Some e ∧
    Sorted (λ a b, float_le (energy_per_atom a) (energy_per_atom b))
      (relevant_entries [("Ca", 1); ("C", 1); ("O", 3)] sample) ∧
    relevant_entries [("Ca", 1); ("C", 1); ("O", 3)] sample
    ≡ₚ filter (λ e, matches [("Ca", 1); ("C", 1); ("O", 3)] e = true) sample.
Proof.
  apply (get_most_stable_entry_lowest "CaCO3"
           [("Ca", 1); ("C", 1); ("O", 3)] booted sample
           (Entry "CaCO3-aragonite" [("Ca", 4); ("C", 4); ("O", 12)]
              (-7441 # 1000))).
  - reflexivity.
  - reflexivity.
  - repeat constructor.
  - reflexivity.
  - intros e He _.
    repeat (apply elem_of_cons in He as [->|He]; [done|]).
    by apply elem_of_nil in He.
Defined.

(** C1 as the specification words it fails when an energy is not a
    number: of three entries of CaO with the energies -1, NaN and -2, in
    this order, [sorted] leaves the list as it is, since no comparison
    with NaN holds, and the call returns the first entry although the
    third has a lower energy. *)
Lemma get_most_stable_entry_NaN_not_lowest :
  heap Samples.with_NaN !! all_entries Samples.with_NaN
  = Some [Samples.CaO_A; Samples.CaO_N; Samples.CaO_B] ∧
  Composition "CaO" = OK [("Ca", 1); ("O", 1)] ∧
  Forall (λ e, reduced_formula (composition e)
               = reduced_formula [("Ca", 1); ("O", 1)])
    [Samples.CaO_A; Samples.CaO_N; Samples.CaO_B] ∧
  (get_most_stable_entry "CaO" Samples.with_NaN).1 = OK Samples.CaO_A ∧
  float_lt (energy_per_atom Samples.CaO_B) (energy_per_atom Samples.CaO_A) ∧
  ¬ float_le (energy_per_atom Samples.CaO_A) (energy_per_atom Samples.CaO_B) ∧
  relevant_entries [("Ca", 1); ("O", 1)]
    [Samples.CaO_A; Samples.CaO_N; Samples.CaO_B]
  = [Samples.CaO_A; Samples.CaO_N; Samples.CaO_B] ∧
  ¬ Sorted (λ a b, float_le (energy_per_atom a) (energy_per_atom b))
      (relevant_entries [("Ca", 1); ("O", 1)]
         [Samples.CaO_A; Samples.CaO_N; Samples.CaO_B]).
Proof.
  split; [reflexivity|]. split; [reflexivity|].
  split; [by repeat constructor|]. split; [reflexivity|].
  split; [by vm_compute|]. split.
  { intros Hle. vm_compute in Hle. by apply Hle. }
  split; [reflexivity|].
  intros Hs. apply Sorted_inv in Hs as [_ Hhd].
  apply HdRel_inv in Hhd. exact Hhd.
Qed.

Example get_most_stable_entry_CaCO3 :
  (get_most_stable_entry "CaCO3" booted).1
  = OK (Entry "CaCO3-calcite" [("Ca", 2); ("C", 2); ("O", 6)] (-7450 # 1000)).
Proof. reflexivity. Qed.

(** Of two entries of equal energy the one that comes first in
    [all_entries] is returned. *)
Example get_most_stable_entry_CaO :
  (get_most_stable_entry "CaO" booted).1
  = OK (Entry "CaO-rocksalt" [("Ca", 1); ("O", 1)] (-6439 # 1000)).
Proof. reflexivity. Qed.

Example get_most_stable_entry_Ca2O2 :
  (get_most_stable_entry "Ca2O2" booted).1
  = OK (Entry "CaO-rocksalt" [("Ca", 1); ("O", 1)] (-6439 # 1000)).
Proof. reflexivity. Qed.

(** A formula the library rejects: its error comes out, unless there
    is no entry to compare with. *)
Example get_most_stable_entry_rejected :
  (get_most_stable_entry "caO" booted).1
  = Raise (LibraryError "invalid formula") ∧
  (get_most_stable_entry "caO" (State {[ 0 := [] ]} 0)).1 = Raise IndexError.
Proof. split; reflexivity. Qed.

(** The sample holds no magnesium oxide: the call raises [IndexError]. *)
Lemma get_most_stable_entry_no_entry_witness :
  (get_most_stable_entry "MgO" booted).1 = Raise IndexError.
Proof.
  apply (get_most_stable_entry_no_entry "MgO" [("Mg", 1); ("O", 1)]
           booted sample).
  - reflexivity.
  - reflexivity.
  - intros e He.
    repeat (apply elem_of_cons in He as [->|He]; [by vm_compute|]).
    by apply elem_of_nil in He.
Defined.

(** C2 as the specification words it fails: [MgO] is a composition, no
    entry of the sample has its reduced formula, and the call ends in
    [IndexError], which is not [NotFoundError]. *)
Lemma get_most_stable_entry_not_NotFoundError :
  Composition "MgO" = OK [("Mg", 1); ("O", 1)] ∧
  heap booted !! all_entries booted = Some sample ∧
  filter (λ e, matches [("Mg", 1); ("O", 1)] e = true) sample = [] ∧
  (get_most_stable_entry "MgO" booted).1 = Raise IndexError ∧
  (get_most_stable_entry "MgO" booted).1 ≠ Raise NotFoundError.
Proof. split_and!; [reflexivity..|by vm_compute]. Qed.

(** [CaO] and [Ca2O2] have the reduced formula [CaO]. *)
Lemma get_most_stable_entry_reduced_witness :
  get_most_stable_entry "CaO" booted = get_most_stable_entry "Ca2O2" booted ∧
  ∀ es e0,
    heap booted !! all_entries booted = Some es →
    e0 ∈ es →
    reduced_formula (composition e0) = reduced_formula [("Ca", 1); ("O", 1)] →
    ∃ e, (get_most_stable_entry "CaO" booted).1 = OK e ∧
         (get_most_stable_entry "Ca2O2" booted).1 = OK e.
Proof.
  apply (get_most_stable_entry_reduced "CaO" "Ca2O2"
           [("Ca", 1); ("O", 1)] [("Ca", 2); ("O", 2)] booted);
    reflexivity.
Defined.
End sample_runs.

(** * Further properties of the reaction notebook *)

(** ** Which element [sorted] puts first *)

Section sorted_first.
Context {A : Type} (key : A → Q).

(** There is one way only to cut a list at a first element of least key. *)
Lemma first_least_unique (l1 l2 l1' l2' : list A) (e e' : A) :
  l1 ++ e :: l2 = l1' ++ e' :: l2' →
  Forall (λ y, (key e < key y)%Q) l1 →
  Forall (λ y, (key e <= key y)%Q) l2 →
  Forall (λ y, (key e' < key y)%Q) l1' →
  Forall (λ y, (key e' <= key y)%Q) l2' →
  l1 = l1' ∧ e = e' ∧ l2 = l2'.
Proof.
  revert l1'. induction l1 as [|x l1 IH]; intros [|x' l1'] Heq H1 H2 H1' H2'.
  - by simplify_eq/=.
  - exfalso. injection Heq as -> ->. apply Forall_cons in H1' as [Hlt _].
    rewrite Forall_forall in H2.
    assert (key x' <= key e')%Q as Hle
      by (apply H2, elem_of_app; right; left).
    by apply Qle_not_lt in Hle.
  - exfalso. injection Heq as <- <-. apply Forall_cons in H1 as [Hlt _].
    rewrite Forall_forall in H2'.
    assert (key x <= key e)%Q as Hle
      by (apply H2', elem_of_app; right; left).
    by apply Qle_not_lt in Hle.
  - injection Heq as -> Heq.
    apply Forall_cons in H1 as [_ H1]. apply Forall_cons in H1' as [_ H1'].
    by destruct (IH l1' Heq H1 H2 H1' H2') as (-> & -> & ->).
Qed.

Lemma stable_sort_head_intro (l1 l2 : list A) (e : A) :
  Forall (λ y, (key e < key y)%Q) l1 →
  Forall (λ y, (key e <= key y)%Q) l2 →
  head (stable_sort key (l1 ++ e :: l2)) = Some e.
Proof.
  intros H1 H2.
  destruct (stable_sort key (l1 ++ e :: l2)) as [|e' s] eqn:Hs.
  { apply stable_sort_nil_inv in Hs. by destruct l1. }
  assert (head (stable_sort key (l1 ++ e :: l2)) = Some e') as Hhd by by rewrite Hs.
  apply stable_sort_head in Hhd as (l1' & l2' & Heq & H1' & H2').
  by destruct (first_least_unique _ _ _ _ _ _ Heq H1 H2 H1' H2') as (_ & -> & _).
Qed.

(** The heads of the sorted lists of two permutations have one key. *)
Lemma stable_sort_head_Permutation (l l' : list A) (e e' : A) :
  l ≡ₚ l' →
  head (stable_sort key l) = Some e → head (stable_sort key l') = Some e' →
  (key e == key e')%Q.
Proof.
  intros Hp He He'. apply Qle_antisym.
  - eapply stable_sort_head_least; [exact He|].
    rewrite Hp. by eapply stable_sort_head_elem_of.
  - eapply stable_sort_head_least; [exact He'|].
    rewrite <-Hp. by eapply stable_sort_head_elem_of.
Qed.

(** Adding an element at the end: it comes first only if its key is
    less than that of the element that came first before. *)
Lemma stable_sort_head_snoc (l : list A) (x : A) :
  head (stable_sort key (l ++ [x]))
  = match head (stable_sort key l) with
    | None => Some x
    | Some e => if Qltb (key x) (key e) then Some x else Some e
    end.
Proof.
  destruct (head (stable_sort key l)) as [e|] eqn:Hhd.
  - destruct (Qltb (key x) (key e)) eqn:Hlt.
    + apply Qltb_lt in Hlt. apply (stable_sort_head_intro l []); [|constructor].
      apply Forall_forall. intros y Hy.
      eapply Qlt_le_trans; [exact Hlt|]. by eapply stable_sort_head_least.
    + apply Qltb_ge in Hlt.
      apply stable_sort_head in Hhd as (l1 & l2 & -> & H1 & H2).
      rewrite <-app_assoc. simpl. apply stable_sort_head_intro; [done|].
      apply Forall_app. split; [done|]. by repeat constructor.
  - destruct (stable_sort key l) eqn:Hs; [|done].
    apply stable_sort_nil_inv in Hs as ->. done.
Qed.
End sorted_first.

(** ** More on [get_most_stable_entry] *)

#[export] Instance float_eq_dec (x y : float) : Decision (float_eq x y).
Proof. destruct x, y; simpl; try apply _. apply Qeq_dec. Defined.

Lemma filter_ext_Forall {A : Type} (P Q1 Q2 : A → Prop)
    `{!∀ x, Decision (Q1 x), !∀ x, Decision (Q2 x)} (l : list A) :
  Forall P l → (∀ x, P x → Q1 x ↔ Q2 x) → filter Q1 l = filter Q2 l.
Proof.
  intros Hall Hext. induction Hall as [|x l Hx Hall IH]; [done|].
  rewrite !filter_cons, IH.
  destruct (decide (Q1 x)) as [H1|H1], (decide (Q2 x)) as [H2|H2];
    try done; by destruct (Hext x Hx); tauto.
Qed.

Section lookup_facts.
Context {Comp : Type} `{!CompositionLib Comp}.
Local Abbreviation entry := (entry Comp).
Implicit Types (σ : state Comp) (c : Comp) (es : list entry) (e : entry).

(** A cut of a filtered list comes from a cut of the list. *)
Lemma filter_cut (P : entry → Prop) `{!∀ e, Decision (P e)} es l1 l2 e :
  filter P es = l1 ++ e :: l2 →
  ∃ before after,
    es = before ++ e :: after ∧ filter P before = l1 ∧ filter P after = l2.
Proof.
  revert l1. induction es as [|x es IH]; intros l1 Hf.
  { by destruct l1. }
  rewrite filter_cons in Hf. destruct (decide (P x)) as [Hx|Hx].
  - destruct l1 as [|y l1]; injection Hf as -> Hf.
    + by exists [], es.
    + destruct (IH l1 Hf) as (before & after & -> & Hb & <-).
      exists (y :: before), after.
      by rewrite filter_cons_True, Hb by done.
  - destruct (IH l1 Hf) as (before & after & -> & Hb & <-).
    exists (x :: before), after. by rewrite filter_cons_False by done.
Qed.

(** The list object [all_entries] names is after a call what it was
    before. *)
Lemma get_most_stable_entry_keeps_contents formula σ :
  heap (get_most_stable_entry formula σ).2
    !! all_entries (get_most_stable_entry formula σ).2
  = heap σ !! all_entries σ.
Proof.
  pose proof (only_allocates_get_most_stable_entry formula σ) as Hext.
  destruct (heap σ !! all_entries σ) as [es|] eqn:Hg.
  - rewrite (proj1 Hext). by eapply extends_lookup.
  - by rewrite get_most_stable_entry_unbound.
Qed.

(** The result is a function of the formula and of that list object
    alone. *)
Lemma get_most_stable_entry_contents formula σ1 σ2 :
  heap σ1 !! all_entries σ1 = heap σ2 !! all_entries σ2 →
  (get_most_stable_entry formula σ1).1 = (get_most_stable_entry formula σ2).1.
Proof.
  intros Heq. destruct (heap σ2 !! all_entries σ2) as [[|e es]|] eqn:Hg.
  - by rewrite !get_most_stable_entry_empty.
  - destruct (Composition formula) as [c|x] eqn:Hc.
    + by rewrite (get_most_stable_entry_run formula c _ σ1 Heq Hc),
        (get_most_stable_entry_run formula c _ σ2 Hg Hc).
    + by rewrite (get_most_stable_entry_invalid formula x e es σ1 Heq Hc),
        (get_most_stable_entry_invalid formula x e es σ2 Hg Hc).
  - by rewrite !get_most_stable_entry_unbound.
Qed.

Lemma get_most_stable_entry_head formula c es σ :
  heap σ !! all_entries σ = Some es →
  Composition formula = OK c →
  (get_most_stable_entry formula σ).1
  = match head (relevant_entries c es) with
    | Some e => OK e
    | None => Raise IndexError
    end.
Proof.
  intros Hg Hc. rewrite (get_most_stable_entry_run formula c es σ Hg Hc).
  simpl. by destruct (relevant_entries c es).
Qed.
End lookup_facts.

Section lookup_behaviour.
Context {Comp : Type} `{!CompositionLib Comp}.
Local Abbreviation entry := (entry Comp).
Implicit Types (σ : state Comp) (c : Comp) (es : list entry) (e : entry).

(** X1: the ways a call can end, each with the condition it ends so.  It
    raises [NameError] when [all_entries] is not bound; [IndexError] when
    the list is empty or, the formula being accepted, holds no entry of
    its reduced formula; the library's own exception when the list is not
    empty and the formula is rejected; otherwise it returns an entry of
    the list with the reduced formula asked for.  Nothing else happens. *)
Theorem get_most_stable_entry_outcomes formula σ :
  let r := (get_most_stable_entry formula σ).1 in
  (r = Raise NameError ∧ heap σ !! all_entries σ = None) ∨
  ∃ es, heap σ !! all_entries σ = Some es ∧
    ((r = Raise IndexError ∧ es = []) ∨
     (∃ x, r = Raise x ∧ es ≠ [] ∧ Composition formula = Raise x) ∨
     (∃ c, Composition formula = OK c ∧ es ≠ [] ∧
        ((r = Raise IndexError ∧
          ∀ e, e ∈ es → reduced_formula (composition e) ≠ reduced_formula c) ∨
         (∃ e, r = OK e ∧ e ∈ es ∧
               reduced_formula (composition e) = reduced_formula c)))).
Proof.
  intros r. subst r.
  destruct (heap σ !! all_entries σ) as [[|e0 es]|] eqn:Hg.
  - right. exists []. split; [done|]. left.
    by rewrite get_most_stable_entry_empty.
  - right. exists (e0 :: es). split; [done|]. right.
    destruct (Composition formula) as [c|x] eqn:Hc.
    + right. exists c. split_and!; [done..|].
      rewrite (get_most_stable_entry_head formula c _ σ Hg Hc).
      destruct (head (relevant_entries c (e0 :: es))) as [e|] eqn:Hhd.
      * right. exists e. split; [done|].
        apply elem_of_relevant_entries.
        apply head_Some in Hhd as [s ->]. left.
      * left. split; [done|]. intros e He Hm.
        apply head_None in Hhd.
        assert (e ∈ relevant_entries c (e0 :: es)) as Hin
          by by apply elem_of_relevant_entries.
        rewrite Hhd in Hin. by apply elem_of_nil in Hin.
    + left. exists x. split_and!; [|done..].
      by rewrite (get_most_stable_entry_invalid formula x e0 es σ Hg Hc).
  - left. by rewrite get_most_stable_entry_unbound.
Qed.

(** X2: a formula the library rejects.  The library is asked inside the
    comprehension, once per entry: with entries in [all_entries] its
    exception comes out of the first evaluation of the condition, when
    the comprehension has created its list, still empty, and before
    [sorted] is reached; with an empty [all_entries] the library is never
    asked, and the call creates its two empty lists and raises
    [IndexError]. *)
Theorem get_most_stable_entry_rejected_formula formula x es σ :
  Composition formula = Raise x →
  heap σ !! all_entries σ = Some es →
  get_most_stable_entry formula σ
  = match es with
    | [] => (Raise IndexError, store [] (store [] σ))
    | _ :: _ => (Raise x, store [] σ)
    end.
Proof.
  intros Hc Hg. destruct es as [|e es].
  - by apply get_most_stable_entry_empty.
  - by eapply get_most_stable_entry_invalid.
Qed.

(** X3: ties.  When the energies of the entries of the reduced formula
    are numbers, the entry returned cuts [all_entries] in two: every
    entry of the reduced formula before it has a strictly greater energy,
    every one after it an energy at least as great.  So of several
    entries of least energy the call returns the one that comes first. *)
Theorem get_most_stable_entry_first_of_least formula c es e σ :
  heap σ !! all_entries σ = Some es →
  Composition formula = OK c →
  (∀ e, e ∈ es → reduced_formula (composition e) = reduced_formula c →
        energy_per_atom e ≠ NaN) →
  (get_most_stable_entry formula σ).1 = OK e →
  ∃ before after,
    es = before ++ e :: after ∧
    (∀ e', e' ∈ before →
           reduced_formula (composition e') = reduced_formula c →
           float_lt (energy_per_atom e) (energy_per_atom e')) ∧
    (∀ e', e' ∈ after →
           reduced_formula (composition e') = reduced_formula c →
           float_le (energy_per_atom e) (energy_per_atom e')).
Proof.
  intros Hg Hc Hnum Hr.
  rewrite (get_most_stable_entry_head formula c es σ Hg Hc) in Hr.
  destruct (head (relevant_entries c es)) as [e1|] eqn:Hhd; [|done].
  injection Hr as ->.
  apply relevant_entries_first_least in Hhd as (l1 & l2 & Hf & H1 & H2);
    [|done].
  apply filter_cut in Hf as (before & after & -> & <- & <-).
  exists before, after. rewrite Forall_forall in H1, H2.
  split_and!; [done|..]; intros e' Hin Hm.
  - apply H1, list_elem_of_filter. by rewrite matches_reduced.
  - apply H2, list_elem_of_filter. by rewrite matches_reduced.
Qed.

(** X4: entries of other compositions do not count.  Two repositories
    that hold the same entries of the reduced formula asked for, in the
    same order, give the same result, whatever else they hold. *)
Theorem get_most_stable_entry_other_entries formula c es1 es2 σ1 σ2 :
  heap σ1 !! all_entries σ1 = Some es1 →
  heap σ2 !! all_entries σ2 = Some es2 →
  Composition formula = OK c →
  filter (λ e, reduced_formula (composition e) = reduced_formula c) es1
  = filter (λ e, reduced_formula (composition e) = reduced_formula c) es2 →
  (get_most_stable_entry formula σ1).1 = (get_most_stable_entry formula σ2).1.
Proof.
  intros Hg1 Hg2 Hc Hf.
  rewrite (get_most_stable_entry_head formula c es1 σ1 Hg1 Hc),
    (get_most_stable_entry_head formula c es2 σ2 Hg2 Hc).
  unfold relevant_entries.
  rewrite (list_filter_iff _
    (λ e, reduced_formula (composition e) = reduced_formula c) es1)
    by (intros; apply matches_reduced).
  rewrite (list_filter_iff (λ e, matches c e = true)
    (λ e, reduced_formula (composition e) = reduced_formula c) es2)
    by (intros; apply matches_reduced).
  by rewrite Hf.
Qed.

(** X5: when the energies of the entries of the reduced formula are
    numbers, the order of [all_entries] decides which entry is returned,
    not its energy.  Over two orders of the same entries the call fails
    with [IndexError] in both or returns entries of equal energy. *)
Theorem get_most_stable_entry_order formula c es1 es2 σ1 σ2 :
  heap σ1 !! all_entries σ1 = Some es1 →
  heap σ2 !! all_entries σ2 = Some es2 →
  Composition formula = OK c →
  (∀ e, e ∈ es1 → reduced_formula (composition e) = reduced_formula c →
        energy_per_atom e ≠ NaN) →
  es1 ≡ₚ es2 →
  match (get_most_stable_entry formula σ1).1,
        (get_most_stable_entry formula σ2).1 with
  | OK e1, OK e2 => float_eq (energy_per_atom e1) (energy_per_atom e2)
  | Raise x1, Raise x2 => x1 = IndexError ∧ x2 = IndexError
  | _, _ => False
  end.
Proof.
  intros Hg1 Hg2 Hc Hnum1 Hp.
  assert (∀ e, e ∈ es2 →
            reduced_formula (composition e) = reduced_formula c →
            energy_per_atom e ≠ NaN) as Hnum2.
  { intros e He. apply Hnum1. by rewrite Hp. }
  rewrite (get_most_stable_entry_head formula c es1 σ1 Hg1 Hc),
    (get_most_stable_entry_head formula c es2 σ2 Hg2 Hc).
  assert (filter (λ e, matches c e = true) es1
          ≡ₚ filter (λ e, matches c e = true) es2) as Hf by by rewrite Hp.
  destruct (head (relevant_entries c es1)) as [e1|] eqn:H1,
    (head (relevant_entries c es2)) as [e2|] eqn:H2; try done.
  - assert (e1 ∈ relevant_entries c es1) as [He1 Hm1]%elem_of_relevant_entries.
    { apply head_Some in H1 as [s ->]. left. }
    assert (e2 ∈ relevant_entries c es2) as [He2 Hm2]%elem_of_relevant_entries.
    { apply head_Some in H2 as [s ->]. left. }
    apply float_eq_to_Q; [by apply Hnum1|by apply Hnum2|].
    rewrite relevant_entries_stable_sort in H1, H2 by done.
    by eapply (stable_sort_head_Permutation
                 (λ e, to_Q (energy_per_atom e))).
  - apply head_None, sorted_nil_inv in H2. rewrite H2 in Hf.
    apply Permutation_nil_r in Hf.
    unfold relevant_entries in H1. by rewrite Hf in H1.
  - apply head_None, sorted_nil_inv in H1. rewrite H1 in Hf.
    apply Permutation_nil_l in Hf.
    unfold relevant_entries in H2. by rewrite <-Hf in H2.
Qed.

(** X6: a new entry at the end of [all_entries], all energies of the
    reduced formula being numbers.  If the new entry has the reduced
    formula asked for, the call returns it when its energy is strictly
    less than that of the entry returned before, or when there was none
    before; otherwise it returns the entry it returned before. *)
Theorem get_most_stable_entry_new_entry formula c es x σ σ' :
  heap σ !! all_entries σ = Some es →
  heap σ' !! all_entries σ' = Some (es ++ [x]) →
  Composition formula = OK c →
  reduced_formula (composition x) = reduced_formula c →
  (∀ e, e ∈ es ++ [x] →
        reduced_formula (composition e) = reduced_formula c →
        energy_per_atom e ≠ NaN) →
  (get_most_stable_entry formula σ').1
  = match (get_most_stable_entry formula σ).1 with
    | OK e =>
        if float_ltb (energy_per_atom x) (energy_per_atom e)
        then OK x else OK e
    | Raise _ => OK x
    end.
Proof.
  intros Hg Hg' Hc Hx Hnum.
  assert (∀ e, e ∈ es →
            reduced_formula (composition e) = reduced_formula c →
            energy_per_atom e ≠ NaN) as Hnum0.
  { intros e He. apply Hnum, elem_of_app. by left. }
  rewrite (get_most_stable_entry_head formula c _ σ' Hg' Hc),
    (get_most_stable_entry_head formula c es σ Hg Hc).
  rewrite !relevant_entries_stable_sort by done.
  rewrite filter_app, filter_cons_True, filter_nil
    by by apply matches_reduced.
  rewrite stable_sort_head_snoc.
  destruct (head (stable_sort _ _)) as [e|] eqn:Hhd; [|done].
  rewrite float_ltb_to_Q.
  - by destruct (Qltb _ _).
  - apply Hnum; [|done]. apply elem_of_app. right. left.
  - apply stable_sort_head_elem_of in Hhd.
    apply list_elem_of_filter in Hhd as [Hm He].
    apply Hnum0; [done|]. by apply matches_reduced.
Qed.

(** X7: no memory between calls.  A call made in the state another call
    has left, whatever that one was asked and however it ended, gives
    the result it would have given in its place. *)
Theorem get_most_stable_entry_after_call formula formula' σ :
  (get_most_stable_entry formula (get_most_stable_entry formula' σ).2).1
  = (get_most_stable_entry formula σ).1.
Proof.
  apply get_most_stable_entry_contents.
  apply get_most_stable_entry_keeps_contents.
Qed.

(** X8: the three lookups of the cell.  They hand [ComputedReaction]
    the entries [CaO] and [CO2] as reactants and [CaCO3] as product, each
    the entry a call alone in the starting state returns; the cell stops
    with the exception of the first of the three calls that raises; and
    [all_entries] is afterwards the list it was. *)
Theorem reaction_arguments_calls σ :
  (reaction_arguments σ).1
  = match (get_most_stable_entry "CaO" σ).1 with
    | Raise x => Raise x
    | OK CaO =>
        match (get_most_stable_entry "CO2" σ).1 with
        | Raise x => Raise x
        | OK CO2 =>
            match (get_most_stable_entry "CaCO3" σ).1 with
            | Raise x => Raise x
            | OK CaCO3 => OK ([CaO; CO2], [CaCO3])
            end
        end
    end ∧
  heap (reaction_arguments σ).2 !! all_entries (reaction_arguments σ).2
  = heap σ !! all_entries σ.
Proof.
  unfold reaction_arguments, mbind, M_bind, mret, M_ret.
  pose proof (get_most_stable_entry_keeps_contents "CaO" σ) as H1.
  destruct (get_most_stable_entry "CaO" σ) as [[e1|x1] σ1]; simpl in *;
    [|done].
  pose proof (get_most_stable_entry_keeps_contents "CO2" σ1) as H2.
  pose proof (get_most_stable_entry_contents "CO2" σ1 σ H1) as R2.
  destruct (get_most_stable_entry "CO2" σ1) as [[e2|x2] σ2]; simpl in *;
    rewrite <-R2; [|split; congruence].
  pose proof (get_most_stable_entry_keeps_contents "CaCO3" σ2) as H3.
  assert (heap σ2 !! all_entries σ2 = heap σ !! all_entries σ) as H2'
    by congruence.
  pose proof (get_most_stable_entry_contents "CaCO3" σ2 σ H2') as R3.
  destruct (get_most_stable_entry "CaCO3" σ2) as [[e3|x3] σ3]; simpl in *;
    rewrite <-R3; split; congruence.
Qed.

(** X9: when the energies of the entries of the reduced formula are
    numbers, the list the second assignment gives to [relevant_entries]
    is the one arrangement of these entries that is ascending in energy
    and holds, for every energy, the entries with that energy in the
    order they have in [all_entries]. *)
Theorem relevant_entries_characterised c es (l : list entry) :
  (∀ e, e ∈ es → reduced_formula (composition e) = reduced_formula c →
        energy_per_atom e ≠ NaN) →
  l = relevant_entries c es ↔
  l ≡ₚ filter (λ e, reduced_formula (composition e) = reduced_formula c) es ∧
  Sorted (λ a b, float_le (energy_per_atom a) (energy_per_atom b)) l ∧
  ∀ q : Q,
    filter (λ e, float_eq (energy_per_atom e) q) l
    = filter (λ e, float_eq (energy_per_atom e) q)
        (filter (λ e, reduced_formula (composition e) = reduced_formula c)
           es).
Proof.
  intros Hnum.
  assert (filter (λ e, matches c e = true) es
          = filter (λ e, reduced_formula (composition e) = reduced_formula c)
              es) as Hf by (apply list_filter_iff; intros; apply matches_reduced).
  pose proof (matching_numbers c es Hnum) as Hall.
  assert (∀ l' (q : Q), Forall (λ e, energy_per_atom e ≠ NaN) l' →
            filter (λ e, float_eq (energy_per_atom e) q) l'
            = filter (has_key (λ e, to_Q (energy_per_atom e)) q) l')
    as Hkey.
  { intros l' q Hl'. eapply filter_ext_Forall; [exact Hl'|].
    intros e He. by apply (float_eq_to_Q (energy_per_atom e) (Finite q)). }
  split.
  - intros ->. split_and!.
    + by rewrite relevant_entries_Permutation, Hf.
    + by apply relevant_entries_Sorted.
    + intros q. rewrite <-Hf, !Hkey; [|done|].
      * rewrite relevant_entries_stable_sort by done. apply stable_sort_stable.
      * by rewrite relevant_entries_Permutation.
  - intros (Hp & Hs & Hq). rewrite <-Hf in Hp, Hq.
    assert (Forall (λ e, energy_per_atom e ≠ NaN) l) as Hl by by rewrite Hp.
    rewrite relevant_entries_stable_sort by done.
    apply stable_sort_unique.
    + eapply (Sorted_impl_Forall _ _ (λ e, energy_per_atom e ≠ NaN));
        [|exact Hl|exact Hs].
      intros a b Ha Hb Hab. by apply float_le_to_Q.
    + intros q. by rewrite <-!Hkey, Hq.
Qed.
End lookup_behaviour.

(** * Properties of the ordering notebook *)

Lemma string_app_cons (a : Ascii.ascii) (s t : string) :
  String a s +:+ t = String a (s +:+ t).
Proof. reflexivity. Qed.

Lemma string_length_app (s t : string) :
  String.length (s +:+ t) = String.length s + String.length t.
Proof.
  induction s as [|a s IH]; [done|].
  rewrite string_app_cons. simpl. by rewrite IH.
Qed.

Lemma string_app_inj_r (s1 s2 t : string) : s1 +:+ t = s2 +:+ t → s1 = s2.
Proof.
  revert s2. induction s1 as [|a s1 IH]; intros [|b s2] Heq.
  - done.
  - apply (f_equal String.length) in Heq.
    rewrite !string_length_app in Heq. simpl in Heq. lia.
  - apply (f_equal String.length) in Heq.
    rewrite !string_length_app in Heq. simpl in Heq. lia.
  - rewrite !string_app_cons in Heq. injection Heq as -> Heq.
    f_equal. by apply IH.
Qed.

Section loop_facts.
Import Ordering.
Context {Structure : Type} `{!StructureLib Structure}.
Local Abbreviation dict := (dict (Structure:=Structure)).
Implicit Types (d : dict) (ss : list dict) (fs : files) (s : Structure).

Lemma filename_eq_inv (i j : nat) : filename i = filename j → i = j.
Proof.
  unfold filename. intros Heq.
  apply (inj (String.app "CuAu_")) in Heq.
  apply string_app_inj_r in Heq. by apply (inj pretty) in Heq.
Qed.

Lemma getitem_structure_of d s :
  structure_of d = Some s → getitem_structure d = inr (Struct s).
Proof.
  unfold structure_of, getitem_structure.
  destruct (d !! "structure") as [[q|s'|t]|]; by intros [= ->].
Qed.

(** One step of the loop, by what the dictionary holds. *)
Lemma write_from_cons_Some i d ss fs s :
  structure_of d = Some s →
  write_from i (d :: ss) fs
  = write_from (S i) ss (<[filename i:=cif s]> fs).
Proof. intros Hd. simpl. by rewrite (getitem_structure_of d s Hd). Qed.

Lemma write_from_cons_None i d ss fs :
  structure_of d = None →
  write_from i (d :: ss) fs
  = (Some (match d !! "structure" with
           | None => KeyError "structure"
           | Some _ => AttributeError "to"
           end), fs).
Proof.
  unfold structure_of. simpl. unfold getitem_structure.
  by destruct (d !! "structure") as [[q|s'|t]|].
Qed.

(** The loop entered at index [i] touches no file but those named by the
    indices from [i] on. *)
Lemma write_from_other i ss fs path :
  (∀ k, i ≤ k < i + length ss → path ≠ filename k) →
  (write_from i ss fs).2 !! path = fs !! path.
Proof.
  revert i fs. induction ss as [|d ss IH]; intros i fs Hp; [done|].
  destruct (structure_of d) as [s|] eqn:Hd.
  - rewrite (write_from_cons_Some i d ss fs s Hd).
    rewrite IH by (intros k Hk; apply Hp; simpl; lia).
    apply lookup_insert_ne. intros Heq. apply (Hp i); [simpl; lia|done].
  - by rewrite (write_from_cons_None i d ss fs Hd).
Qed.


Lemma write_from_good i ss fs :
  Forall (λ d, is_Some (structure_of d)) ss →
  (write_from i ss fs).1 = None ∧
  ∀ k d s, ss !! k = Some d → structure_of d = Some s →
           (write_from i ss fs).2 !! filename (i + k) = Some (cif s).
Proof.
  revert i fs. induction ss as [|d ss IH]; intros i fs Hall; [done|].
  apply Forall_cons in Hall as [[s Hd] Hall].
  rewrite (write_from_cons_Some i d ss fs s Hd).
  destruct (IH (S i) (<[filename i:=cif s]> fs) Hall) as [Hr Hfiles].
  split; [done|]. intros [|k] d' s' Hk Hd'; simplify_eq/=.
  - rewrite Nat.add_0_r, write_from_other.
    + apply lookup_insert_eq.
    + intros k Hk Heq. apply filename_eq_inv in Heq. lia.
  - rewrite Nat.add_succ_r. by eapply (Hfiles k).
Qed.

Lemma write_from_size i ss fs :
  Forall (λ d, is_Some (structure_of d)) ss →
  (∀ k, i ≤ k < i + length ss → fs !! filename k = None) →
  size (write_from i ss fs).2 = size fs + length ss.
Proof.
  revert i fs. induction ss as [|d ss IH]; intros i fs Hall Hnew.
  { simpl. lia. }
  apply Forall_cons in Hall as [[s Hd] Hall].
  rewrite (write_from_cons_Some i d ss fs s Hd), IH; [|done|].
  - rewrite map_size_insert_None by (apply Hnew; simpl; lia). simpl. lia.
  - intros k Hk. rewrite lookup_insert_ne.
    + apply Hnew. simpl. lia.
    + intros Heq. apply filename_eq_inv in Heq. lia.
Qed.

Lemma write_from_None_inv i ss fs :
  (write_from i ss fs).1 = None → Forall (λ d, is_Some (structure_of d)) ss.
Proof.
  revert i fs. induction ss as [|d ss IH]; intros i fs Hr; [done|].
  destruct (structure_of d) as [s|] eqn:Hd.
  - rewrite (write_from_cons_Some i d ss fs s Hd) in Hr.
    constructor; [by rewrite Hd|by eapply IH].
  - by rewrite (write_from_cons_None i d ss fs Hd) in Hr.
Qed.

Lemma cell_sizes_good ss :
  Forall (λ d, is_Some (structure_of d)) ss →
  ∃ ns, cell_sizes ss = inr ns ∧
    Forall2 (λ d n, ∃ s, structure_of d = Some s ∧ n = num_sites s) ss ns.
Proof.
  induction 1 as [|d ss [s Hd] _ (ns & Hns & Hall)].
  { by exists []. }
  exists (num_sites s :: ns). simpl.
  rewrite (getitem_structure_of d s Hd), Hns. simpl.
  split; [done|]. constructor; [by exists s|done].
Qed.

(** The list for the matcher holds whatever is under the key. *)
Lemma structures_inr ss vs :
  structures ss = inr vs ↔ Forall2 (λ d v, d !! "structure" = Some v) ss vs.
Proof.
  revert vs. induction ss as [|d ss IH]; intros vs; simpl.
  { split; [by intros [= <-]; constructor|by intros ->%Forall2_nil_inv_l]. }
  unfold getitem_structure.
  destruct (d !! "structure") as [v|] eqn:Hd.
  - destruct (structures ss) as [e|vs'] eqn:Hss.
    + split; [done|]. intros (v' & vs' & _ & Hall & _)%Forall2_cons_inv_l.
      by apply IH in Hall.
    + split.
      * intros [= <-]. constructor; [done|]. by apply IH.
      * intros (v' & vs'' & Hv & Hall%IH & ->)%Forall2_cons_inv_l.
        by simplify_eq.
  - split; [done|]. intros (v' & vs' & Hv & _)%Forall2_cons_inv_l.
    by rewrite Hd in Hv.
Qed.

Lemma structures_inl ss e : structures ss = inl e → e = KeyError "structure".
Proof.
  induction ss as [|d ss IH]; simpl; [done|]. unfold getitem_structure.
  destruct (d !! "structure") as [v|]; [|by intros [= <-]].
  destruct (structures ss) as [e'|vs]; [|done]. intros [= <-]. by apply IH.
Qed.
End loop_facts.

Section loop_behaviour.
Import Ordering.
Context {Structure : Type} `{!StructureLib Structure}.
Local Abbreviation dict := (dict (Structure:=Structure)).
Implicit Types (d : dict) (ss : list dict) (fs : files) (s : Structure).

(** X10: two candidates never share a file: different indices give
    different file names. *)
Theorem filename_distinct (i j : nat) : i ≠ j → filename i ≠ filename j.
Proof. intros Hne Heq. by apply Hne, filename_eq_inv. Qed.

(** X11: when every dictionary holds a structure, the loop ends without
    an exception and the file numbered [k] holds what the structure of
    the [k]-th dictionary writes. *)
Theorem write_all_files ss fs :
  Forall (λ d, is_Some (structure_of d)) ss →
  (write_all ss fs).1 = None ∧
  ∀ k d s, ss !! k = Some d → structure_of d = Some s →
           (write_all ss fs).2 !! filename k = Some (cif s).
Proof.
  intros Hall. destruct (write_from_good 0 ss fs Hall) as [Hr Hfiles].
  split; [done|]. intros k d s Hk Hd. by apply (Hfiles k d s).
Qed.

(** X12: however the loop ends, a file whose name is not that of an
    index of the list is left alone: it is there with the same contents,
    or still not there. *)
Theorem write_all_other_files ss fs path :
  (∀ k, k < length ss → path ≠ filename k) →
  (write_all ss fs).2 !! path = fs !! path.
Proof.
  intros Hp. apply write_from_other. intros k Hk. apply Hp. lia.
Qed.


(** X14: running the loop a second time changes nothing: it ends the
    same way and leaves the files the first run left. *)
Theorem write_all_again ss fs :
  write_all ss (write_all ss fs).2 = write_all ss fs.
Proof.
  unfold write_all. generalize 0 as i. revert fs.
  induction ss as [|d ss IH]; intros fs i; [done|].
  destruct (structure_of d) as [s|] eqn:Hd.
  - rewrite !(write_from_cons_Some i d ss _ s Hd).
    rewrite insert_id; [apply IH|].
    rewrite write_from_other; [apply lookup_insert_eq|].
    intros k Hk Heq. apply filename_eq_inv in Heq. lia.
  - by rewrite !(write_from_cons_None i d ss _ Hd).
Qed.

(** X15: when every dictionary holds a structure and none of the file
    names is taken, the loop adds as many files as the list has
    candidates. *)
Theorem write_all_count ss fs :
  Forall (λ d, is_Some (structure_of d)) ss →
  (∀ k, k < length ss → fs !! filename k = None) →
  size (write_all ss fs).2 = size fs + length ss.
Proof.
  intros Hall Hnew. apply write_from_size; [done|].
  intros k Hk. apply Hnew. lia.
Qed.

(** X16: the two comprehensions over the ranked list.  The one for the
    matcher goes through exactly when every dictionary has the key
    [structure], and then lists what is under it, in order; when it does
    not go through it raises [KeyError].  When every dictionary holds a
    structure the cell sizes are the numbers of sites of the structures,
    in order. *)
Theorem ranked_list_comprehensions ss :
  (∀ vs, structures ss = inr vs ↔
         Forall2 (λ d v, d !! "structure" = Some v) ss vs) ∧
  (∀ e, structures ss = inl e → e = KeyError "structure") ∧
  (Forall (λ d, is_Some (structure_of d)) ss →
   ∃ ns, cell_sizes ss = inr ns ∧
     Forall2 (λ d n, ∃ s, structure_of d = Some s ∧ n = num_sites s) ss ns).
Proof.
  split_and!.
  - apply structures_inr.
  - apply structures_inl.
  - apply cell_sizes_good.
Qed.
End loop_behaviour.

(** * The further properties on the samples *)

Section more_sample_runs.
Import Flat Samples.

(** Every energy of the sample is a number. *)
Lemma sample_numbers (e : entry comp) :
  e ∈ sample ++ [CaO_new] → energy_per_atom e ≠ NaN.
Proof.
  intros He. repeat (apply elem_of_cons in He as [->|He]; [done|]).
  by apply elem_of_nil in He.
Qed.

(** The formula [caO] is rejected; the sample is not empty. *)
Lemma get_most_stable_entry_rejected_formula_witness :
  get_most_stable_entry "caO" booted
  = match sample with
    | [] => (Raise IndexError, store [] (store [] booted))
    | _ :: _ => (Raise (LibraryError "invalid formula"), store [] booted)
    end.
Proof.
  apply (get_most_stable_entry_rejected_formula "caO"
           (LibraryError "invalid formula") sample booted);
    reflexivity.
Defined.

(** The same formula on the empty repository. *)
Example get_most_stable_entry_rejected_empty :
  get_most_stable_entry "caO" empty
  = (Raise IndexError, store [] (store [] empty)).
Proof. by apply get_most_stable_entry_empty. Qed.

(** Two entries of CaO have the least energy; the first is returned. *)
Lemma get_most_stable_entry_first_of_least_witness :
  ∃ before after,
    sample
    = before
      ++ Entry "CaO-rocksalt" [("Ca", 1); ("O", 1)] (-6439 # 1000) :: after ∧
    (∀ e', e' ∈ before →
           reduced_formula (composition e')
           = reduced_formula [("Ca", 1); ("O", 1)] →
           float_lt (-6439 # 1000) (energy_per_atom e')) ∧
    (∀ e', e' ∈ after →
           reduced_formula (composition e')
           = reduced_formula [("Ca", 1); ("O", 1)] →
           float_le (-6439 # 1000) (energy_per_atom e')).
Proof.
  apply (get_most_stable_entry_first_of_least "CaO" [("Ca", 1); ("O", 1)]
           sample (Entry "CaO-rocksalt" [("Ca", 1); ("O", 1)] (-6439 # 1000))
           booted);
    [reflexivity..| |reflexivity].
  intros e He _. apply sample_numbers, elem_of_app. by left.
Defined.

(** Carbon dioxide has no part in the lookup of CaCO3. *)
Lemma get_most_stable_entry_other_entries_witness :
  (get_most_stable_entry "CaCO3" booted).1
  = (get_most_stable_entry "CaCO3" without_CO2).1.
Proof.
  apply (get_most_stable_entry_other_entries "CaCO3"
           [("Ca", 1); ("C", 1); ("O", 3)] sample
           (filter (λ e, entry_id e ≠ "CO2") sample) booted without_CO2);
    reflexivity.
Defined.

(** In the opposite order the other of the two CaO entries of least
    energy is returned. *)
Lemma get_most_stable_entry_order_witness :
  match (get_most_stable_entry "CaO" booted).1,
        (get_most_stable_entry "CaO" reordered).1 with
  | OK e1, OK e2 => float_eq (energy_per_atom e1) (energy_per_atom e2)
  | Raise x1, Raise x2 => x1 = IndexError ∧ x2 = IndexError
  | _, _ => False
  end.
Proof.
  apply (get_most_stable_entry_order "CaO" [("Ca", 1); ("O", 1)]
           sample (reverse sample) booted reordered);
    [reflexivity..| |].
  - intros e He _. apply sample_numbers, elem_of_app. by left.
  - symmetry. apply reverse_Permutation.
Defined.

Example get_most_stable_entry_reordered :
  (get_most_stable_entry "CaO" reordered).1
  = OK (Entry "CaO-rocksalt-bis" [("Ca", 4); ("O", 4)] (-6439 # 1000)).
Proof. reflexivity. Qed.

(** A new polymorph of lower energy takes the place of the old answer. *)
Lemma get_most_stable_entry_new_entry_witness :
  (get_most_stable_entry "CaO" grown).1
  = match (get_most_stable_entry "CaO" booted).1 with
    | OK e =>
        if float_ltb (energy_per_atom CaO_new) (energy_per_atom e)
        then OK CaO_new else OK e
    | Raise _ => OK CaO_new
    end.
Proof.
  apply (get_most_stable_entry_new_entry "CaO" [("Ca", 1); ("O", 1)]
           sample CaO_new booted grown);
    [reflexivity..|].
  intros e He _. by apply sample_numbers.
Defined.

Example get_most_stable_entry_grown :
  (get_most_stable_entry "CaO" grown).1 = OK CaO_new.
Proof. reflexivity. Qed.

(** The cell on the sample. *)
Example reaction_arguments_sample :
  (reaction_arguments booted).1
  = OK ([Entry "CaO-rocksalt" [("Ca", 1); ("O", 1)] (-6439 # 1000);
         Entry "CO2" [("C", 4); ("O", 8)] (-7664 # 1000)],
        [Entry "CaCO3-calcite" [("Ca", 2); ("C", 2); ("O", 6)]
           (-7450 # 1000)]).
Proof. reflexivity. Qed.

(** The three entries of CaO of the sample, arranged. *)
Lemma relevant_entries_characterised_witness :
  [Entry "CaO-rocksalt" [("Ca", 1); ("O", 1)] (-6439 # 1000);
   Entry "CaO-rocksalt-bis" [("Ca", 4); ("O", 4)] (-6439 # 1000);
   Entry "CaO-CsCl" [("Ca", 2); ("O", 2)] (-6021 # 1000)]
  = relevant_entries [("Ca", 1); ("O", 1)] sample ↔
  [Entry "CaO-rocksalt" [("Ca", 1); ("O", 1)] (-6439 # 1000);
   Entry "CaO-rocksalt-bis" [("Ca", 4); ("O", 4)] (-6439 # 1000);
   Entry "CaO-CsCl" [("Ca", 2); ("O", 2)] (-6021 # 1000)]
  ≡ₚ filter (λ e, reduced_formula (composition e)
                  = reduced_formula [("Ca", 1); ("O", 1)]) sample ∧
  Sorted (λ a b, float_le (energy_per_atom a) (energy_per_atom b))
    [Entry "CaO-rocksalt" [("Ca", 1); ("O", 1)] (-6439 # 1000);
     Entry "CaO-rocksalt-bis" [("Ca", 4); ("O", 4)] (-6439 # 1000);
     Entry "CaO-CsCl" [("Ca", 2); ("O", 2)] (-6021 # 1000)] ∧
  ∀ q : Q,
    filter (λ e, float_eq (energy_per_atom e) q)
      [Entry "CaO-rocksalt" [("Ca", 1); ("O", 1)] (-6439 # 1000);
       Entry "CaO-rocksalt-bis" [("Ca", 4); ("O", 4)] (-6439 # 1000);
       Entry "CaO-CsCl" [("Ca", 2); ("O", 2)] (-6021 # 1000)]
    = filter (λ e, float_eq (energy_per_atom e) q)
        (filter (λ e, reduced_formula (composition e)
                      = reduced_formula [("Ca", 1); ("O", 1)]) sample).
Proof.
  apply (relevant_entries_characterised [("Ca", 1); ("O", 1)] sample).
  intros e He _. apply sample_numbers, elem_of_app. by left.
Defined.

Example relevant_entries_CaO :
  relevant_entries [("Ca", 1); ("O", 1)] sample
  = [Entry "CaO-rocksalt" [("Ca", 1); ("O", 1)] (-6439 # 1000);
     Entry "CaO-rocksalt-bis" [("Ca", 4); ("O", 4)] (-6439 # 1000);
     Entry "CaO-CsCl" [("Ca", 2); ("O", 2)] (-6021 # 1000)].
Proof. reflexivity. Qed.

(** With an energy that is not a number the order of [all_entries]
    decides the energy returned, and a new entry of lower energy at the
    end is passed over. *)
Example get_most_stable_entry_NaN_orders :
  (get_most_stable_entry "CaO" (State {[ 0 := [CaO_A; CaO_N; CaO_B] ]} 0)).1
  = OK CaO_A ∧
  (get_most_stable_entry "CaO" (State {[ 0 := [CaO_N; CaO_A; CaO_B] ]} 0)).1
  = OK CaO_N ∧
  (get_most_stable_entry "CaO" (State {[ 0 := [CaO_B; CaO_N; CaO_A] ]} 0)).1
  = OK CaO_B ∧
  (get_most_stable_entry "CaO" (State {[ 0 := [CaO_A; CaO_N] ]} 0)).1
  = OK CaO_A.
Proof. by repeat split. Qed.
End more_sample_runs.

Section loop_sample_runs.
Import Ordering.

Lemma filename_distinct_witness : filename 0 ≠ filename 10.
Proof. apply (filename_distinct 0 10). lia. Defined.

Example filename_10 : filename 10 = "CuAu_10.cif".
Proof. reflexivity. Qed.

(** The three candidates of the ranked list, written to an empty
    directory. *)
Lemma write_all_files_witness :
  (write_all ranked ∅).1 = None ∧
  ∀ k d s, ranked !! k = Some d → structure_of d = Some s →
           (write_all ranked ∅).2 !! filename k = Some (cif s).
Proof.
  apply (write_all_files ranked ∅).
  repeat (constructor; [eexists; vm_compute; reflexivity|]). constructor.
Defined.

Example write_all_ranked :
  (write_all ranked ∅).2
  = {[ "CuAu_0.cif" := "Cu Cu Au Au ";
       "CuAu_1.cif" := "Cu Au Cu Au ";
       "CuAu_2.cif" := "Au Cu Cu Au " ]}.
Proof. by vm_compute. Qed.

(** A file of another name stays. *)
Lemma write_all_other_files_witness :
  (write_all ranked {[ "notes.txt" := "keep" ]}).2 !! "notes.txt"
  = ({[ "notes.txt" := "keep" ]} : files) !! "notes.txt".
Proof.
  apply (write_all_other_files ranked {[ "notes.txt" := "keep" ]} "notes.txt").
  intros k Hk. destruct k as [|[|[|k]]]; [by vm_compute..|].
  simpl in Hk. lia.
Defined.


Example write_all_broken :
  write_all broken ∅
  = (Some (KeyError "structure"), {[ "CuAu_0.cif" := "Cu Cu Au Au " ]}).
Proof. by vm_compute. Qed.

(** Three candidates, three files. *)
Lemma write_all_count_witness :
  size (write_all ranked ∅).2 = size (∅ : files) + length ranked.
Proof.
  apply (write_all_count ranked ∅).
  - repeat (constructor; [eexists; vm_compute; reflexivity|]). constructor.
  - intros k _. apply lookup_empty.
Defined.

Example cell_sizes_ranked : cell_sizes ranked = inr [4; 4; 4].
Proof. reflexivity. Qed.

Example cell_sizes_broken : cell_sizes broken = inl (KeyError "structure").
Proof. reflexivity. Qed.

Example structures_ranked :
  structures ranked
  = inr [Struct ["Cu"; "Cu"; "Au"; "Au"]; Struct ["Cu"; "Au"; "Cu"; "Au"];
         Struct ["Au"; "Cu"; "Cu"; "Au"]].
Proof. reflexivity. Qed.

(** A string under the key has a length, so the cell sizes are computed,
    but no method [to], so the loop raises. *)
Example cell_sizes_mislabelled :
  cell_sizes [mislabelled] = inr [4] ∧
  write_all [mislabelled] ∅ = (Some (AttributeError "to"), ∅).
Proof. by split. Qed.
End loop_sample_runs.
